(** * Direct Text-to-Website Generator (script.py): model and properties

    The script asks a chat-completion service for one page component,
    cleans the answer up, and writes a Next.js project skeleton around it.

    The model follows script.py function by function:
    - a Python [str] is a list of code points ([N]); literals are written
      with [lit];
    - [str.strip], [startswith], [in], [split], [join], [replace] and
      [lower] are the builtins the script calls, written out; so are
      [pathlib]'s path arithmetic and [json.dump] with [indent=2];
    - the chat-completion client is a function from the request to what the
      service does with it; the file system is a finite map from paths to
      nodes; the operating system may refuse any file operation;
    - every effect (log line, printed line, request, file operation) is
      recorded in an event list, so that a statement can say what a run did
      and in which order;
    - [try/except] is a result type ([Ok] or [Raise]) in a state monad over
      the world. *)

From Stdlib Require Import NArith QArith_base Lia Strings.Ascii Strings.String.
From stdpp Require Import base option list strings gmap.

(** ** Python strings *)

Abbreviation char := N.
Abbreviation str := (list N).

Definition lit (s : string) : str := N_of_ascii <$> list_ascii_of_string s.
Arguments lit _%_string.

Definition nl : char := 10%N.

(** [str.isspace] for one code point: the characters [str.strip()] removes
    (CPython's whitespace table). *)
Definition isspace (c : char) : bool :=
  ((9 <=? c) && (c <=? 13) || (28 <=? c) && (c <=? 32)
   || (c =? 133) || (c =? 160) || (c =? 5760)
   || (8192 <=? c) && (c <=? 8202)
   || (c =? 8232) || (c =? 8233) || (c =? 8239) || (c =? 8287)
   || (c =? 12288))%N.

Fixpoint lstrip (s : str) : str :=
  match s with
  | c :: t => if isspace c then lstrip t else s
  | [] => []
  end.

Fixpoint rstrip (s : str) : str :=
  match s with
  | [] => []
  | c :: t =>
      match rstrip t with
      | [] => if isspace c then [] else [c]
      | t' => c :: t'
      end
  end.

(** [s.strip()] *)
Definition strip (s : str) : str := rstrip (lstrip s).

(** [s.startswith(p)] *)
Fixpoint startswith (s p : str) : bool :=
  match p, s with
  | [], _ => true
  | _ :: _, [] => false
  | a :: p', b :: s' => (a =? b)%N && startswith s' p'
  end.

(** [sub in s] *)
Fixpoint contains (s sub : str) : bool :=
  startswith s sub ||
  match s with
  | [] => false
  | _ :: t => contains t sub
  end.

(** [s.split(sep)] for a one-character separator: never the empty list. *)
Fixpoint split (sep : char) (s : str) : list str :=
  match s with
  | [] => [[]]
  | c :: t =>
      if (c =? sep)%N then [] :: split sep t
      else match split sep t with
           | l :: ls => (c :: l) :: ls
           | [] => [[c]]
           end
  end.

(** [sep.join(ls)] *)
Fixpoint join (sep : str) (ls : list str) : str :=
  match ls with
  | [] => []
  | [l] => l
  | l :: ls' => l ++ sep ++ join sep ls'
  end.

(** [s.replace(old, new)] for a non-empty [old]: occurrences are replaced
    left to right without overlap; [skip] counts the characters of a match
    still to be passed over. *)
Fixpoint replace_from (old new s : str) (skip : nat) : str :=
  match s with
  | [] => []
  | c :: t =>
      match skip with
      | S k => replace_from old new t k
      | O => if startswith s old
             then new ++ replace_from old new t (length old - 1)
             else c :: replace_from old new t 0
      end
  end.

Definition replace (s old new : str) : str := replace_from old new s 0.

(** ** Post-processing of the model's answer (generate_website_code) *)

Definition fence : str := lit "```".

(** Lines 112-119: markdown clean-up. [lines[0]] exists because [split]
    never returns the empty list. *)
Definition strip_fences (generated_code : str) : str :=
  if startswith generated_code fence then
    let lines := split nl generated_code in
    let lines :=
      match lines with
      | l0 :: rest => if startswith l0 fence then rest else lines
      | [] => lines
      end in
    let lines :=
      match last lines with
      | Some l => if startswith l fence then removelast lines else lines
      | None => lines
      end in
    join [nl] lines
  else generated_code.

Definition client_features : list str :=
  [lit "useState"; lit "useEffect"; lit "onClick"; lit "onChange";
   lit "onSubmit"; lit "onFocus"; lit "onBlur"].

(** The literal the [startswith] test looks for, and the text prepended. *)
Definition use_client : str := lit "'use client'".
Definition use_client_line : str := lit "'use client';" ++ [nl; nl].

Definition has_client_feature (generated_code : str) : bool :=
  existsb (contains generated_code) client_features.

(** Lines 121-124. *)
Definition add_directive (generated_code : str) : str :=
  if has_client_feature generated_code && negb (startswith generated_code use_client)
  then use_client_line ++ generated_code
  else generated_code.

(** What the script makes of [response.choices[0].message.content]. *)
Definition postprocess (content : str) : str :=
  add_directive (strip_fences (strip content)).

(** ** [str.lower] and the project name (main, "Clean project name") *)

Definition is_ascii (c : char) : bool := (c <? 128)%N.

Definition ascii_lower (c : char) : char :=
  if ((65 <=? c) && (c <=? 90))%N then (c + 32)%N else c.

(** [s.lower()]. On ASCII text it is the A-Z to a-z table. For other text
    Python consults the Unicode case tables, which are not part of the
    script: they are the parameter [unicode_lower]. *)
Definition lower (unicode_lower : str → str) (s : str) : str :=
  if forallb is_ascii s then ascii_lower <$> s else unicode_lower s.

(** [args.project_name.lower().replace(' ', '-').replace('_', '-')] *)
Definition clean_project_name (unicode_lower : str → str) (name : str) : str :=
  replace (replace (lower unicode_lower name) (lit " ") (lit "-")) (lit "_") (lit "-").

(** ** pathlib paths

    A path is what [pathlib.PurePosixPath] keeps of its argument: whether it
    is anchored at the root, and its parts. Empty parts and [.] parts are
    dropped on parsing; [..] parts are kept. (POSIX sets a path with
    exactly two leading slashes apart; here it is anchored like any other.) *)

Abbreviation path := (bool * list str)%type.

Definition slash : char := 47%N.

Definition path_parts (s : str) : list str :=
  filter (λ x, x ≠ [] ∧ x ≠ lit ".") (split slash s).

(** [Path(s)] *)
Definition Path (s : str) : path := (startswith s [slash], path_parts s).

(** [p / s]: an anchored right operand replaces the left one. *)
Definition path_join (p : path) (s : str) : path :=
  let q := Path s in
  if q.1 then q else (p.1, p.2 ++ q.2).

Infix "/:" := path_join (at level 40, left associativity).

(** [str(p)] *)
Definition path_str (p : path) : str :=
  match p with
  | (true, parts) => slash :: join [slash] parts
  | (false, []) => lit "."
  | (false, parts) => join [slash] parts
  end.

(** ** json.dump(obj, f, indent=2) *)

#[local] Set Warnings "-register-all".

Inductive json :=
  | JStr (s : str)
  | JBool (b : bool)
  | JList (items : list json)
  | JDict (items : list (str * json)).

Definition hex_digit (n : N) : char :=
  if (n <? 10)%N then (48 + n)%N else (87 + n)%N.

Definition backslash : char := 92%N.
Definition dquote : char := 34%N.

(** A backslash, [u], and four hexadecimal digits. *)
Definition u_escape (n : N) : str :=
  [backslash; 117; hex_digit ((n / 4096) `mod` 16); hex_digit ((n / 256) `mod` 16);
   hex_digit ((n / 16) `mod` 16); hex_digit (n `mod` 16)]%N.

(** One character under [ensure_ascii=True] (json.encoder, ESCAPE_ASCII):
    the quote, the backslash and the control characters with a short
    escape; printable ASCII as it is; the rest as UTF-16 code units. *)
Definition escape_char (c : char) : str :=
  if (c =? dquote)%N then [backslash; dquote]
  else if (c =? backslash)%N then [backslash; backslash]
  else if (c =? 10)%N then backslash :: lit "n"
  else if (c =? 13)%N then backslash :: lit "r"
  else if (c =? 9)%N then backslash :: lit "t"
  else if (c =? 12)%N then backslash :: lit "f"
  else if (c =? 8)%N then backslash :: lit "b"
  else if ((32 <=? c) && (c <=? 126))%N then [c]
  else if (c <? 65536)%N then u_escape c
  else let n := (c - 65536)%N in
       u_escape (N.lor 55296 (N.land (N.shiftr n 10) 1023))
       ++ u_escape (N.lor 56320 (N.land n 1023)).

Definition encode_basestring_ascii (s : str) : str :=
  dquote :: concat (escape_char <$> s) ++ [dquote].

Definition newline_indent (level : nat) : str :=
  nl :: replicate (2 * level) 32%N.

Fixpoint iterencode (level : nat) (o : json) : str :=
  match o with
  | JStr s => encode_basestring_ascii s
  | JBool b => if b then lit "true" else lit "false"
  | JList [] => lit "[]"
  | JList items =>
      lit "[" ++ newline_indent (S level)
      ++ join (lit "," ++ newline_indent (S level)) (iterencode (S level) <$> items)
      ++ newline_indent level ++ lit "]"
  | JDict [] => lit "{}"
  | JDict items =>
      lit "{" ++ newline_indent (S level)
      ++ join (lit "," ++ newline_indent (S level))
           ((λ kv, encode_basestring_ascii kv.1 ++ lit ": " ++ iterencode (S level) kv.2)
              <$> items)
      ++ newline_indent level ++ lit "}"
  end.

Definition json_dump (o : json) : str := iterencode 0 o.

(** ** The literal texts of the script *)

(** A text whose lines all end in a newline. *)
Definition unlines (ls : list str) : str := concat ((λ l, l ++ [nl]) <$> ls).

(** A Rocq string literal cannot hold a bare double quote: the texts below
    spell it [~], a character none of them uses, and [tpl] puts it back. *)
Definition tpl (s : string) : str :=
  (λ c, if (c =? 126)%N then dquote else c) <$> lit s.
Arguments tpl _%_string.

(** create_system_prompt: the fixed system instruction. *)
Definition system_prompt : str :=
  join [nl] (lit <$>
    ["You are an expert Next.js 14+ developer specializing in creating modern, responsive websites using the App Router.";
     EmptyString;
     "CRITICAL REQUIREMENTS:";
     "1. Generate clean, production-ready Next.js/React code for Next.js 14+ App Router";
     "2. Use TypeScript and Tailwind CSS";
     "3. Output ONLY the code - NO explanations, NO markdown formatting";
     "4. Always add 'use client'; directive at the top if using ANY client-side features (useState, useEffect, event handlers, etc.)";
     "5. Never use next/head in App Router - metadata should be handled in layout.tsx";
     "6. Create beautiful, modern UI with proper styling";
     "7. Ensure responsive design (mobile-first)";
     "8. Use React hooks and best practices";
     "9. Include proper imports and exports";
     EmptyString;
     "NEXT.JS APP ROUTER RULES:";
     "- Components are Server Components by default";
     "- Add 'use client'; at the very top if using: useState, useEffect, onClick, onChange, onSubmit, etc.";
     "- Don't use next/head - use metadata export in layout files instead";
     "- Use proper TypeScript interfaces";
     "- Follow App Router conventions";
     EmptyString;
     "STYLING GUIDELINES:";
     "- Use Tailwind CSS for all styling";
     "- Create beautiful gradients and modern colors";
     "- Include hover effects and transitions";
     "- Use proper spacing and typography";
     "- Make it visually appealing and professional";
     "- Use modern design patterns (glassmorphism, subtle animations)";
     EmptyString;
     "OUTPUT FORMAT:";
     "Generate a complete Next.js page component with:";
     "1. 'use client'; directive if needed (VERY IMPORTANT)";
     "2. All necessary imports";
     "3. TypeScript interfaces if needed";
     "4. Functional component with hooks (if client-side)";
     "5. Beautiful JSX with Tailwind classes";
     "6. Responsive design";
     "7. Modern UI elements";
     "8. Proper error handling for forms";
     EmptyString;
     "EXAMPLE STRUCTURE:";
     "```typescript";
     "'use client'; // Only if using client-side features";
     EmptyString;
     "import { useState } from 'react';";
     EmptyString;
     "export default function HomePage() {";
     "  // Component logic here";
     "  return (";
     "    <div>";
     "      {/* JSX here */}";
     "    </div>";
     "  );";
     "}";
     "```";
     EmptyString;
     "Remember: Output ONLY the React component code, no explanations, no markdown formatting."]).

(** create_next_config: text of next.config.js. *)
Definition next_config : str :=
  unlines (lit <$>
    ["/** @type {import('next').NextConfig} */";
     "const nextConfig = {";
     "  eslint: {";
     "    ignoreDuringBuilds: true,";
     "  },";
     "  typescript: {";
     "    ignoreBuildErrors: false,";
     "  },";
     "}";
     EmptyString;
     "module.exports = nextConfig"]).

(** create_tailwind_config: text of tailwind.config.js. *)
Definition tailwind_config : str :=
  unlines (tpl <$>
    ["/** @type {import('tailwindcss').Config} */";
     "module.exports = {";
     "  content: [";
     "    './src/pages/**/*.{js,ts,jsx,tsx,mdx}',";
     "    './src/components/**/*.{js,ts,jsx,tsx,mdx}',";
     "    './src/app/**/*.{js,ts,jsx,tsx,mdx}',";
     "  ],";
     "  theme: {";
     "    extend: {";
     "      colors: {";
     "        border: ~hsl(var(--border))~,";
     "        input: ~hsl(var(--input))~,";
     "        ring: ~hsl(var(--ring))~,";
     "        background: ~hsl(var(--background))~,";
     "        foreground: ~hsl(var(--foreground))~,";
     "        primary: {";
     "          DEFAULT: ~hsl(var(--primary))~,";
     "          foreground: ~hsl(var(--primary-foreground))~,";
     "        },";
     "        secondary: {";
     "          DEFAULT: ~hsl(var(--secondary))~,";
     "          foreground: ~hsl(var(--secondary-foreground))~,";
     "        },";
     "        destructive: {";
     "          DEFAULT: ~hsl(var(--destructive))~,";
     "          foreground: ~hsl(var(--destructive-foreground))~,";
     "        },";
     "        muted: {";
     "          DEFAULT: ~hsl(var(--muted))~,";
     "          foreground: ~hsl(var(--muted-foreground))~,";
     "        },";
     "        accent: {";
     "          DEFAULT: ~hsl(var(--accent))~,";
     "          foreground: ~hsl(var(--accent-foreground))~,";
     "        },";
     "        popover: {";
     "          DEFAULT: ~hsl(var(--popover))~,";
     "          foreground: ~hsl(var(--popover-foreground))~,";
     "        },";
     "        card: {";
     "          DEFAULT: ~hsl(var(--card))~,";
     "          foreground: ~hsl(var(--card-foreground))~,";
     "        },";
     "      },";
     "      borderRadius: {";
     "        lg: ~var(--radius)~,";
     "        md: ~calc(var(--radius) - 2px)~,";
     "        sm: ~calc(var(--radius) - 4px)~,";
     "      },";
     "      animation: {";
     "        'fade-in': 'fadeIn 0.5s ease-in-out',";
     "        'slide-up': 'slideUp 0.5s ease-out',";
     "        'bounce-slow': 'bounce 2s infinite',";
     "      },";
     "      keyframes: {";
     "        fadeIn: {";
     "          '0%': { opacity: '0' },";
     "          '100%': { opacity: '1' },";
     "        },";
     "        slideUp: {";
     "          '0%': { transform: 'translateY(20px)', opacity: '0' },";
     "          '100%': { transform: 'translateY(0)', opacity: '1' },";
     "        },";
     "      },";
     "    },";
     "  },";
     "  plugins: [],";
     "}"]).

(** create_postcss_config: text of postcss.config.js. *)
Definition postcss_config : str :=
  unlines (lit <$>
    ["module.exports = {";
     "  plugins: {";
     "    tailwindcss: {},";
     "    autoprefixer: {},";
     "  },";
     "}"]).

(** create_globals_css: text of src/app/globals.css. *)
Definition globals_css : str :=
  unlines (tpl <$>
    ["@tailwind base;";
     "@tailwind components;";
     "@tailwind utilities;";
     EmptyString;
     "@layer base {";
     "  :root {";
     "    --background: 0 0% 100%;";
     "    --foreground: 222.2 84% 4.9%;";
     "    --card: 0 0% 100%;";
     "    --card-foreground: 222.2 84% 4.9%;";
     "    --popover: 0 0% 100%;";
     "    --popover-foreground: 222.2 84% 4.9%;";
     "    --primary: 221.2 83.2% 53.3%;";
     "    --primary-foreground: 210 40% 98%;";
     "    --secondary: 210 40% 96%;";
     "    --secondary-foreground: 222.2 47.4% 11.2%;";
     "    --muted: 210 40% 96%;";
     "    --muted-foreground: 215.4 16.3% 46.9%;";
     "    --accent: 210 40% 96%;";
     "    --accent-foreground: 222.2 47.4% 11.2%;";
     "    --destructive: 0 84.2% 60.2%;";
     "    --destructive-foreground: 210 40% 98%;";
     "    --border: 214.3 31.8% 91.4%;";
     "    --input: 214.3 31.8% 91.4%;";
     "    --ring: 221.2 83.2% 53.3%;";
     "    --radius: 0.75rem;";
     "  }";
     EmptyString;
     "  .dark {";
     "    --background: 222.2 84% 4.9%;";
     "    --foreground: 210 40% 98%;";
     "    --card: 222.2 84% 4.9%;";
     "    --card-foreground: 210 40% 98%;";
     "    --popover: 222.2 84% 4.9%;";
     "    --popover-foreground: 210 40% 98%;";
     "    --primary: 217.2 91.2% 59.8%;";
     "    --primary-foreground: 222.2 47.4% 11.2%;";
     "    --secondary: 217.2 32.6% 17.5%;";
     "    --secondary-foreground: 210 40% 98%;";
     "    --muted: 217.2 32.6% 17.5%;";
     "    --muted-foreground: 215 20.2% 65.1%;";
     "    --accent: 217.2 32.6% 17.5%;";
     "    --accent-foreground: 210 40% 98%;";
     "    --destructive: 0 62.8% 30.6%;";
     "    --destructive-foreground: 210 40% 98%;";
     "    --border: 217.2 32.6% 17.5%;";
     "    --input: 217.2 32.6% 17.5%;";
     "    --ring: 224.3 76.3% 94.0%;";
     "  }";
     "}";
     EmptyString;
     "@layer base {";
     "  * {";
     "    @apply border-border;";
     "  }";
     "  body {";
     "    @apply bg-background text-foreground;";
     "    font-feature-settings: ~rlig~ 1, ~calt~ 1;";
     "  }";
     "}";
     EmptyString;
     "@layer components {";
     "  .btn {";
     "    @apply inline-flex items-center justify-center rounded-md text-sm font-medium ring-offset-background transition-colors focus-visible:outline-none focus-visible:ring-2 focus-visible:ring-ring focus-visible:ring-offset-2 disabled:pointer-events-none disabled:opacity-50;";
     "    @apply h-10 px-4 py-2;";
     "  }";
     "  ";
     "  .btn-primary {";
     "    @apply bg-primary text-primary-foreground hover:bg-primary/90;";
     "  }";
     "  ";
     "  .btn-secondary {";
     "    @apply bg-secondary text-secondary-foreground hover:bg-secondary/80;";
     "  }";
     "  ";
     "  .card {";
     "    @apply rounded-lg border bg-card text-card-foreground shadow-sm;";
     "  }";
     EmptyString;
     "  .glass {";
     "    @apply backdrop-blur-md bg-white/10 border border-white/20;";
     "  }";
     EmptyString;
     "  .gradient-text {";
     "    @apply bg-gradient-to-r from-purple-400 to-pink-400 bg-clip-text text-transparent;";
     "  }";
     "}";
     EmptyString;
     "/* Smooth scrolling */";
     "html {";
     "  scroll-behavior: smooth;";
     "}";
     EmptyString;
     "/* Custom scrollbar */";
     "::-webkit-scrollbar {";
     "  width: 8px;";
     "}";
     EmptyString;
     "::-webkit-scrollbar-track {";
     "  background: hsl(var(--muted));";
     "}";
     EmptyString;
     "::-webkit-scrollbar-thumb {";
     "  background: hsl(var(--primary));";
     "  border-radius: 4px;";
     "}";
     EmptyString;
     "::-webkit-scrollbar-thumb:hover {";
     "  background: hsl(var(--primary) / 0.8);";
     "}"]).

(** create_layout_file: text of src/app/layout.tsx. *)
Definition layout_content : str :=
  unlines (tpl <$>
    ["import type { Metadata } from 'next'";
     "import { Inter } from 'next/font/google'";
     "import './globals.css'";
     EmptyString;
     "const inter = Inter({ subsets: ['latin'] })";
     EmptyString;
     "export const metadata: Metadata = {";
     "  title: 'Generated Website',";
     "  description: 'AI-generated website using Next.js and Tailwind CSS',";
     "  viewport: 'width=device-width, initial-scale=1',";
     "}";
     EmptyString;
     "export default function RootLayout({";
     "  children,";
     "}: {";
     "  children: React.ReactNode";
     "}) {";
     "  return (";
     "    <html lang=~en~>";
     "      <body className={inter.className}>{children}</body>";
     "    </html>";
     "  )";
     "}"]).

(** create_gitignore: text of .gitignore. *)
Definition gitignore_content : str :=
  unlines (lit <$>
    ["# Dependencies";
     "/node_modules";
     "/.pnp";
     ".pnp.js";
     ".yarn/install-state.gz";
     EmptyString;
     "# Testing";
     "/coverage";
     EmptyString;
     "# Next.js";
     "/.next/";
     "/out/";
     EmptyString;
     "# Production";
     "/build";
     EmptyString;
     "# Misc";
     ".DS_Store";
     "*.pem";
     EmptyString;
     "# Debug";
     "npm-debug.log*";
     "yarn-debug.log*";
     "yarn-error.log*";
     EmptyString;
     "# Local env files";
     ".env*.local";
     ".env";
     EmptyString;
     "# Vercel";
     ".vercel";
     EmptyString;
     "# TypeScript";
     "*.tsbuildinfo";
     "next-env.d.ts";
     EmptyString;
     "# IDE";
     ".vscode/";
     ".idea/";
     "*.swp";
     "*.swo"]).

(** create_readme: the README text after its title line. *)
Definition readme_body : str :=
  unlines (lit <$>
    [EmptyString;
     "This is a Next.js project generated by the AI Text-to-Website Generator.";
     EmptyString;
     "## Getting Started";
     EmptyString;
     "First, install dependencies:";
     EmptyString;
     "```bash";
     "npm install";
     "# or";
     "yarn install";
     "# or";
     "pnpm install";
     "```";
     EmptyString;
     "Then, run the development server:";
     EmptyString;
     "```bash";
     "npm run dev";
     "# or";
     "yarn dev";
     "# or";
     "pnpm dev";
     "```";
     EmptyString;
     "Open [http://localhost:3000](http://localhost:3000) with your browser to see the result.";
     EmptyString;
     "## Technologies Used";
     EmptyString;
     "- **Next.js 15** - React framework with App Router";
     "- **TypeScript** - Type-safe JavaScript";
     "- **Tailwind CSS** - Utility-first CSS framework";
     "- **ESLint** - Code linting";
     EmptyString;
     "## Learn More";
     EmptyString;
     "To learn more about Next.js, take a look at the following resources:";
     EmptyString;
     "- [Next.js Documentation](https://nextjs.org/docs) - learn about Next.js features and API.";
     "- [Learn Next.js](https://nextjs.org/learn) - an interactive Next.js tutorial.";
     EmptyString;
     "## Deploy on Vercel";
     EmptyString;
     "The easiest way to deploy your Next.js app is to use the [Vercel Platform](https://vercel.com/new?utm_medium=default-template&filter=next.js&utm_source=create-next-app&utm_campaign=create-next-app-readme) from the creators of Next.js.";
     EmptyString;
     "Check out our [Next.js deployment documentation](https://nextjs.org/docs/deployment) for more details."]).

(** create_readme: the f-string interpolates the project name in the title. *)
Definition readme_content (project_name : str) : str :=
  lit "# " ++ project_name ++ [nl] ++ readme_body.

(** create_package_json: the dictionary handed to [json.dump]. *)
Definition package_json (project_name : str) : json :=
  JDict
    [(lit "name", JStr project_name);
     (lit "version", JStr (lit "0.1.0"));
     (lit "private", JBool true);
     (lit "scripts", JDict
        [(lit "dev", JStr (lit "next dev"));
         (lit "build", JStr (lit "next build"));
         (lit "start", JStr (lit "next start"));
         (lit "lint", JStr (lit "next lint"))]);
     (lit "dependencies", JDict
        [(lit "react", JStr (lit "^18.3.1"));
         (lit "react-dom", JStr (lit "^18.3.1"));
         (lit "next", JStr (lit "^15.0.3"));
         (lit "@types/node", JStr (lit "^22.0.0"));
         (lit "@types/react", JStr (lit "^18.3.12"));
         (lit "@types/react-dom", JStr (lit "^18.3.1"));
         (lit "typescript", JStr (lit "^5.6.0"));
         (lit "tailwindcss", JStr (lit "^3.4.14"));
         (lit "autoprefixer", JStr (lit "^10.4.20"));
         (lit "postcss", JStr (lit "^8.4.47"));
         (lit "eslint", JStr (lit "^9.0.0"));
         (lit "eslint-config-next", JStr (lit "^15.0.3"));
         (lit "@eslint/config-array", JStr (lit "^0.18.0"));
         (lit "@eslint/object-schema", JStr (lit "^2.1.4"))]);
     (lit "devDependencies", JDict
        [(lit "@eslint/js", JStr (lit "^9.0.0"));
         (lit "globals", JStr (lit "^15.0.0"))])].

(** create_typescript_config *)
Definition ts_config : json :=
  JDict
    [(lit "compilerOptions", JDict
        [(lit "target", JStr (lit "ES2017"));
         (lit "lib", JList [JStr (lit "dom"); JStr (lit "dom.iterable"); JStr (lit "ES6")]);
         (lit "allowJs", JBool true);
         (lit "skipLibCheck", JBool true);
         (lit "strict", JBool true);
         (lit "noEmit", JBool true);
         (lit "esModuleInterop", JBool true);
         (lit "module", JStr (lit "esnext"));
         (lit "moduleResolution", JStr (lit "bundler"));
         (lit "resolveJsonModule", JBool true);
         (lit "isolatedModules", JBool true);
         (lit "jsx", JStr (lit "preserve"));
         (lit "incremental", JBool true);
         (lit "plugins", JList [JDict [(lit "name", JStr (lit "next"))]]);
         (lit "baseUrl", JStr (lit "."));
         (lit "paths", JDict [(lit "@/*", JList [JStr (lit "./src/*")])])]);
     (lit "include", JList
        [JStr (lit "next-env.d.ts"); JStr (lit "**/*.ts"); JStr (lit "**/*.tsx");
         JStr (lit ".next/types/**/*.ts")]);
     (lit "exclude", JList [JStr (lit "node_modules")])].

(** create_eslint_config *)
Definition eslint_config : json :=
  JDict
    [(lit "extends", JList [JStr (lit "next/core-web-vitals"); JStr (lit "next/typescript")]);
     (lit "rules", JDict
        [(lit "@typescript-eslint/no-unused-vars", JStr (lit "warn"));
         (lit "react-hooks/exhaustive-deps", JStr (lit "warn"))])].

(** ** Exceptions, the world, and the effect monad *)

Inductive exn :=
  | APIConnectionError (msg : str)
  | APIStatusError (status : N) (msg : str)
  | IndexError
  | AttributeError
  | OSError (msg : str)
  | UnicodeDecodeError.

(** [str(e)], as the log lines interpolate it. *)
Definition exn_str (e : exn) : str :=
  match e with
  | APIConnectionError msg => msg
  | APIStatusError _ msg => msg
  | IndexError => lit "list index out of range"
  | AttributeError => lit "'NoneType' object has no attribute 'strip'"
  | OSError msg => msg
  | UnicodeDecodeError => lit "'utf-8' codec can't decode bytes"
  end.

Inductive result (A : Type) :=
  | Ok (a : A)
  | Raise (e : exn).
Arguments Ok {A} a.
Arguments Raise {A} e.

(** The chat-completion request of generate_website_code. *)
Record request := {
  model : str;
  messages : list (str * str);
  temperature : Q;
  max_tokens : N;
  presence_penalty : Q;
  frequency_penalty : Q
}.

(** What the service does with a request: the connection fails, the answer
    has a non-success status (the client library raises for both), or a
    completion comes back. Each choice carries [message.content], which the
    API may leave null. *)
Inductive api_result :=
  | NetworkFailure (msg : str)
  | ErrorStatus (status : N) (msg : str)
  | Completion (choices : list (option str)).

(** A file-system node: a directory, a text file, or a file whose bytes are
    not UTF-8 text. *)
Inductive node :=
  | Dir
  | File (text : str)
  | Blob.

Inductive level := INFO | ERROR.

Inductive event :=
  | ELog (lvl : level) (msg : str)
  | EPrint (msg : str)
  | ENetCall (r : request)
  | ERmtree (p : path)
  | EMkdir (p : path)
  | EWrite (p : path) (text : str).

(** The world the script runs in. [faults] lists, for the file operations
    to come, whether the operating system refuses the next one for a reason
    of its own (permissions, full disk): [Some msg] makes it raise
    [OSError msg]. [events] is the history of what the run did. *)
Record world := {
  fs : gmap path node;
  faults : list (option str);
  events : list event
}.

Definition M (A : Type) : Type := world → result A * world.

Definition ret {A} (a : A) : M A := λ w, (Ok a, w).

Definition raise {A} (e : exn) : M A := λ w, (Raise e, w).

Definition bind {A B} (m : M A) (k : A → M B) : M B := λ w,
  match m w with
  | (Ok a, w') => k a w'
  | (Raise e, w') => (Raise e, w')
  end.

(** [try: m  except Exception as e: h e] *)
Definition try_except {A} (m : M A) (h : exn → M A) : M A := λ w,
  match m w with
  | (Ok a, w') => (Ok a, w')
  | (Raise e, w') => h e w'
  end.

Notation "'let*' x := m 'in' k" := (bind m (λ x, k))
  (at level 10, x name, m at level 100, k at level 200).
Notation "m ;; k" := (bind m (λ _, k))
  (at level 100, k at level 200, right associativity).

Definition emit (e : event) : M unit := λ w,
  (Ok tt, {| fs := fs w; faults := faults w; events := events w ++ [e] |}).

Definition set_fs (f : gmap path node) : M unit := λ w,
  (Ok tt, {| fs := f; faults := faults w; events := events w |}).

Definition logger_info (msg : str) : M unit := emit (ELog INFO msg).
Definition logger_error (msg : str) : M unit := emit (ELog ERROR msg).

(** [print(msg)] on a standard output that can encode the text. The banners
    of main hold emoji: on an output that cannot encode them (an ASCII
    locale) [print] raises, which is left aside here. *)
Definition print (msg : str) : M unit := emit (EPrint msg).

(** [for x in l: f x] *)
Fixpoint for_each {A} (l : list A) (f : A → M unit) : M unit :=
  match l with
  | [] => ret tt
  | x :: l' => f x ;; for_each l' f
  end.

(** ** File operations

    The file system maps paths to nodes; the current directory and the root
    are not entries of the map, they always exist. Paths are told apart by
    their parts: a [..] part and a symbolic link are not resolved, so the
    operations are those of the operating system on paths without [..]
    part in a file system without links. An operation that raises leaves
    the file system as it found it; what a half-done [rmtree] or [mkdir]
    leaves behind, and the empty or partial file that a failed write
    leaves, are not modelled: the events and the file system speak of
    operations that were completed. A text that the locale cannot encode on
    writing counts among the faults. *)

(** The operating system's own verdict on the next operation. *)
Definition next_fault : M unit := λ w,
  match faults w with
  | Some msg :: fl => (Raise (OSError msg), {| fs := fs w; faults := fl; events := events w |})
  | None :: fl => (Ok tt, {| fs := fs w; faults := fl; events := events w |})
  | [] => (Ok tt, w)
  end.

Definition os_error (what : string) (p : path) : exn :=
  OSError (lit what ++ lit ": '" ++ path_str p ++ lit "'").

(** [q] is [p] or lies below it. *)
Definition under (p q : path) : Prop := p.1 = q.1 ∧ p.2 `prefix_of` q.2.

(** [p.exists()]: the current directory and the root always exist. *)
Definition path_exists (p : path) : M bool := λ w,
  (Ok (bool_decide (p.2 = []) || bool_decide (is_Some (fs w !! p))), w).

(** [os.path.isfile(s)], for an argument read by its parts as [Path s]
    reads it: a trailing slash, which the operating system refuses after
    the name of a file, is not told apart from its absence. *)
Definition isfile (s : str) : M bool := λ w,
  (Ok match fs w !! Path s with
      | Some (File _) | Some Blob => true
      | _ => false
      end, w).

(** [shutil.rmtree(p)] *)
Definition rmtree (p : path) : M unit :=
  next_fault ;;
  λ w,
    match p.2, fs w !! p with
    | [], _ => raise (os_error "[Errno 22] Invalid argument" p) w
    | _, Some Dir =>
        (set_fs (filter (λ kv, ¬ under p kv.1) (fs w)) ;; emit (ERmtree p)) w
    | _, Some _ => raise (os_error "[Errno 20] Not a directory" p) w
    | _, None => raise (os_error "[Errno 2] No such file or directory" p) w
    end.

(** The directories [mkdir(parents=True, exist_ok=True)] goes through, from
    the outermost on: [base] is already there, [rest] is still to do. *)
Fixpoint mkdir_from (anchored : bool) (base rest : list str) (f : gmap path node)
    : result (gmap path node) :=
  match rest with
  | [] => Ok f
  | x :: rest' =>
      let k := base ++ [x] in
      match f !! (anchored, k) with
      | None => mkdir_from anchored k rest' (<[(anchored, k) := Dir]> f)
      | Some Dir => mkdir_from anchored k rest' f
      | Some _ =>
          match rest' with
          | [] => Raise (os_error "[Errno 17] File exists" (anchored, k))
          | _ => Raise (os_error "[Errno 20] Not a directory" (anchored, base ++ rest))
          end
      end
  end.

(** [p.mkdir(parents=True, exist_ok=True)] *)
Definition mkdir (p : path) : M unit :=
  next_fault ;;
  λ w,
    match mkdir_from p.1 [] p.2 (fs w) with
    | Ok f => (set_fs f ;; emit (EMkdir p)) w
    | Raise e => raise e w
    end.

Definition parent (p : path) : path := (p.1, removelast p.2).

(** [with open(p, 'w') as f: f.write(text)] (and the same with
    [json.dump(o, f, indent=2)], whose output is [text]). *)
Definition write_text (p : path) (text : str) : M unit :=
  next_fault ;;
  λ w,
    match p.2, fs w !! p with
    | [], _ | _, Some Dir => raise (os_error "[Errno 21] Is a directory" p) w
    | _, _ =>
        if bool_decide ((parent p).2 = [])
        then (set_fs (<[p := File text]> (fs w)) ;; emit (EWrite p text)) w
        else match fs w !! parent p with
             | Some Dir => (set_fs (<[p := File text]> (fs w)) ;; emit (EWrite p text)) w
             | Some _ => raise (os_error "[Errno 20] Not a directory" p) w
             | None => raise (os_error "[Errno 2] No such file or directory" p) w
             end
    end.

(** [with open(s, 'r', encoding='utf-8') as f: f.read()] *)
Definition read_text (s : str) : M str :=
  next_fault ;;
  λ w,
    match fs w !! Path s with
    | Some (File text) => ret text w
    | Some Blob => raise UnicodeDecodeError w
    | Some Dir => raise (os_error "[Errno 21] Is a directory" (Path s)) w
    | None => raise (os_error "[Errno 2] No such file or directory" (Path s)) w
    end.

(** ** DirectWebsiteGenerator *)

Record ProjectConfig := {
  project_name : str;
  output_dir : str;
  openai_api_key : str
}.

Record DirectWebsiteGenerator := {
  config : ProjectConfig;
  client : request → api_result;
  project_path : path
}.

(** [DirectWebsiteGenerator(config)]; [OpenAI] maps a credential to the
    client built from it. Building the client sends nothing. A generator
    sends one request in its life, and [client] says what the service does
    with it; another run is another generator, whose client may answer the
    same request differently. *)
Definition new_generator (OpenAI : str → request → api_result) (config : ProjectConfig)
    : DirectWebsiteGenerator :=
  {| config := config;
     client := OpenAI (openai_api_key config);
     project_path := Path (output_dir config) /: project_name config |}.

Definition chat_request (text_input : str) : request :=
  {| model := lit "gpt-4-turbo-2024-04-09";
     messages :=
       [(lit "system", system_prompt);
        (lit "user",
         lit "Create a Next.js App Router page component for: " ++ text_input
         ++ lit ". Make it modern, beautiful, and fully functional. Include proper client-side interactivity if needed.")];
     temperature := 1 # 10;
     max_tokens := 4000;
     presence_penalty := 1 # 10;
     frequency_penalty := 1 # 10 |}.

(** [self.client.chat.completions.create(...)]: one request goes out; the
    library raises on a failed connection and on a non-success status. *)
Definition chat_completions_create (c : request → api_result) (r : request)
    : M (list (option str)) :=
  emit (ENetCall r) ;;
  match c r with
  | NetworkFailure msg => raise (APIConnectionError msg)
  | ErrorStatus status msg => raise (APIStatusError status msg)
  | Completion choices => ret choices
  end.

Definition generate_website_code (self : DirectWebsiteGenerator) (text_input : str) : M str :=
  try_except
    (let* choices := chat_completions_create (client self) (chat_request text_input) in
     let* choice0 := match choices with
                     | c :: _ => ret c
                     | [] => raise IndexError
                     end in
     let* content := match choice0 with
                     | Some s => ret s
                     | None => raise AttributeError
                     end in
     let generated_code := strip content in
     let generated_code := strip_fences generated_code in
     let generated_code := add_directive generated_code in
     ret generated_code)
    (λ e, logger_error (lit "Error generating code: " ++ exn_str e) ;; raise e).

(** The path [rel] parts below [p]. *)
Definition below (p : path) (rel : list str) : path := (p.1, p.2 ++ rel).

Definition create_project_structure (self : DirectWebsiteGenerator) : M bool :=
  try_except
    (logger_info (lit "Creating project structure...") ;;
     let* there := path_exists (project_path self) in
     (if there then rmtree (project_path self) else ret tt) ;;
     for_each
       [project_path self;
        project_path self /: lit "src";
        project_path self /: lit "src" /: lit "app";
        project_path self /: lit "src" /: lit "components";
        project_path self /: lit "public"]
       mkdir ;;
     logger_info (lit "Project structure created successfully") ;;
     ret true)
    (λ e, logger_error (lit "Error creating project structure: " ++ exn_str e) ;; ret false).

Definition create_package_json (self : DirectWebsiteGenerator) : M bool :=
  try_except
    (write_text (project_path self /: lit "package.json")
       (json_dump (package_json (project_name (config self)))) ;;
     logger_info (lit "package.json created with updated dependencies") ;;
     ret true)
    (λ e, logger_error (lit "Error creating package.json: " ++ exn_str e) ;; ret false).

Definition create_next_config (self : DirectWebsiteGenerator) : M bool :=
  try_except
    (write_text (project_path self /: lit "next.config.js") next_config ;;
     ret true)
    (λ e, logger_error (lit "Error creating next.config.js: " ++ exn_str e) ;; ret false).

Definition create_tailwind_config (self : DirectWebsiteGenerator) : M bool :=
  try_except
    (write_text (project_path self /: lit "tailwind.config.js") tailwind_config ;;
     ret true)
    (λ e, logger_error (lit "Error creating tailwind.config.js: " ++ exn_str e) ;; ret false).

Definition create_postcss_config (self : DirectWebsiteGenerator) : M bool :=
  try_except
    (write_text (project_path self /: lit "postcss.config.js") postcss_config ;;
     ret true)
    (λ e, logger_error (lit "Error creating postcss.config.js: " ++ exn_str e) ;; ret false).

Definition create_typescript_config (self : DirectWebsiteGenerator) : M bool :=
  try_except
    (write_text (project_path self /: lit "tsconfig.json") (json_dump ts_config) ;;
     ret true)
    (λ e, logger_error (lit "Error creating tsconfig.json: " ++ exn_str e) ;; ret false).

Definition create_globals_css (self : DirectWebsiteGenerator) : M bool :=
  try_except
    (write_text (project_path self /: lit "src" /: lit "app" /: lit "globals.css") globals_css ;;
     ret true)
    (λ e, logger_error (lit "Error creating globals.css: " ++ exn_str e) ;; ret false).

Definition create_layout_file (self : DirectWebsiteGenerator) : M bool :=
  try_except
    (write_text (project_path self /: lit "src" /: lit "app" /: lit "layout.tsx") layout_content ;;
     ret true)
    (λ e, logger_error (lit "Error creating layout.tsx: " ++ exn_str e) ;; ret false).

Definition create_page_file (self : DirectWebsiteGenerator) (generated_code : str) : M bool :=
  try_except
    (write_text (project_path self /: lit "src" /: lit "app" /: lit "page.tsx") generated_code ;;
     logger_info (lit "Main page created successfully") ;;
     ret true)
    (λ e, logger_error (lit "Error creating page.tsx: " ++ exn_str e) ;; ret false).

Definition create_eslint_config (self : DirectWebsiteGenerator) : M bool :=
  try_except
    (write_text (project_path self /: lit ".eslintrc.json") (json_dump eslint_config) ;;
     ret true)
    (λ e, logger_error (lit "Error creating .eslintrc.json: " ++ exn_str e) ;; ret false).

Definition create_gitignore (self : DirectWebsiteGenerator) : M bool :=
  try_except
    (write_text (project_path self /: lit ".gitignore") gitignore_content ;;
     ret true)
    (λ e, logger_error (lit "Error creating .gitignore: " ++ exn_str e) ;; ret false).

Definition create_readme (self : DirectWebsiteGenerator) : M bool :=
  try_except
    (write_text (project_path self /: lit "README.md")
       (readme_content (project_name (config self))) ;;
     ret true)
    (λ e, logger_error (lit "Error creating README.md: " ++ exn_str e) ;; ret false).

(** [if not step: return False], then the rest. *)
Definition or_return_false (step : M bool) (rest : M bool) : M bool :=
  let* ok := step in
  if ok then rest else ret false.

Notation "'unless_failed' step ; rest" := (or_return_false step rest)
  (at level 10, step at level 100, rest at level 200).

Definition generate_website (self : DirectWebsiteGenerator) (text_input : str) : M bool :=
  try_except
    (logger_info (lit "Starting direct website generation...") ;;
     logger_info (lit "Generating code with GPT-4...") ;;
     let* generated_code := generate_website_code self text_input in
     unless_failed create_project_structure self;
     logger_info (lit "Creating configuration files...") ;;
     unless_failed create_package_json self;
     unless_failed create_next_config self;
     unless_failed create_tailwind_config self;
     unless_failed create_postcss_config self;
     unless_failed create_typescript_config self;
     unless_failed create_eslint_config self;
     unless_failed create_gitignore self;
     unless_failed create_readme self;
     logger_info (lit "Creating app files...") ;;
     unless_failed create_globals_css self;
     unless_failed create_layout_file self;
     unless_failed create_page_file self generated_code;
     logger_info (lit "Website generation completed successfully!") ;;
     logger_info (lit "Project location: " ++ path_str (project_path self)) ;;
     logger_info (lit "To run the project:") ;;
     logger_info (lit "  cd " ++ path_str (project_path self)) ;;
     logger_info (lit "  npm install") ;;
     logger_info (lit "  npm run dev") ;;
     ret true)
    (λ e, logger_error (lit "Error in website generation: " ++ exn_str e) ;; ret false).

(** ** main *)

(** The parsed command line. *)
Record Args := {
  input : str;
  output_dir_arg : str;
  project_name_arg : str;
  api_key_arg : option str
}.

(** Python truthiness of an optional string: [None] and [''] are false. *)
Definition truthy (o : option str) : bool :=
  match o with
  | Some (_ :: _) => true
  | _ => false
  end.

(** [a or b] *)
Definition py_or (a b : option str) : option str := if truthy a then a else b.

(** main, "Read input text": the argument names a file to read, or is the
    description itself. Nothing catches what [open] or [read] raise. *)
Definition read_input (args : Args) : M str :=
  let* is_file := isfile (input args) in
  if is_file then read_text (input args) else ret (input args).

(** The body of [main] after [parser.parse_args()]. [getenv] is the value of
    OPENAI_API_KEY in the environment. *)
Definition main (unicode_lower : str → str) (OpenAI : str → request → api_result)
    (getenv : option str) (args : Args) : M unit :=
  let api_key := py_or (api_key_arg args) getenv in
  match api_key with
  | Some (c :: k) =>
      let api_key := c :: k in
      let* text_input := read_input args in
      let project_name := clean_project_name unicode_lower (project_name_arg args) in
      let config := {| project_name := project_name;
                       output_dir := output_dir_arg args;
                       openai_api_key := api_key |} in
      let generator := new_generator OpenAI config in
      let* success := generate_website generator text_input in
      if success then
        let location := path_str (Path (output_dir_arg args) /: project_name) in
        print ([nl; 9989%N] ++ lit " Website generated successfully!") ;;
        print ([128193%N] ++ lit " Project location: " ++ location) ;;
        print ([nl; 128640%N] ++ lit " To run your website:") ;;
        print (lit "   cd " ++ location) ;;
        print (lit "   npm install") ;;
        print (lit "   npm run dev") ;;
        print ([nl; 127760%N] ++ lit " Your website will be available at: http://localhost:3000")
      else
        print ([nl; 10060%N] ++ lit " Website generation failed. Check logs for details.")
  | _ =>
      logger_error (lit "OpenAI API key is required. Use --api-key or set OPENAI_API_KEY environment variable.")
  end.

(** The status the interpreter exits with: 0 when [main] returns, 1 when an
    exception escapes it. *)
Definition exit_status (r : result unit) : N :=
  match r with
  | Ok _ => 0
  | Raise _ => 1
  end.


(** ** Vocabulary of the statements *)

(** What generate_website_code makes of the service's answer. *)
Definition completion_outcome (r : api_result) : result str :=
  match r with
  | NetworkFailure msg => Raise (APIConnectionError msg)
  | ErrorStatus status msg => Raise (APIStatusError status msg)
  | Completion [] => Raise IndexError
  | Completion (None :: _) => Raise AttributeError
  | Completion (Some content :: _) => Ok (postprocess content)
  end.

(** The directive written with double quotes. *)
Definition use_client_dquoted : str := dquote :: lit "use client" ++ [dquote].

(** A space or an underscore becomes a hyphen. *)
Definition hyphenate (c : char) : char :=
  if ((c =? 32) || (c =? 95))%N then 45%N else c.

(** A name is safe to hang below the output directory when [output / name]
    is the output directory's path with that one name added: the name is
    the single part of its own path, and is not [..]. *)
Definition names_one_directory (name : str) : bool :=
  bool_decide (Path name = (false, [name])) && negb (bool_decide (name = lit "..")).

(** A case table with the ASCII rows only: enough to run the model on
    ASCII names, where [lower] never consults the table. *)
Definition ascii_table_only : str → str := fmap ascii_lower.

(** Events that touch the network or change the file system. *)
Definition side_effect (e : event) : bool :=
  match e with
  | ENetCall _ | ERmtree _ | EMkdir _ | EWrite _ _ => true
  | ELog _ _ | EPrint _ => false
  end.

(** The files a history wrote, in order, with what was written. *)
Definition writes_of (evs : list event) : list (path * str) :=
  omap (λ e, match e with EWrite p text => Some (p, text) | _ => None end) evs.

#[global] Instance node_eq_dec : EqDecision node.
Proof. solve_decision. Defined.

(** A file system is a tree: whatever lies deeper than one name below the
    root or the current directory sits in a directory. *)
Definition parent_is_dir (f : gmap path node) (k : path) : Prop :=
  (parent k).2 = [] ∨ f !! parent k = Some Dir.

Definition fs_wf (f : gmap path node) : Prop :=
  map_Forall (λ k _, parent_is_dir f k) f.

#[global] Instance parent_is_dir_dec f k : Decision (parent_is_dir f k).
Proof. unfold parent_is_dir. apply _. Defined.

#[global] Instance fs_wf_dec f : Decision (fs_wf f).
Proof. unfold fs_wf. apply _. Defined.

(** A path that the operating system follows part by part: no part of it
    is [..]. On such a path (the model has no symbolic links) the entry
    that the path denotes is the entry kept under its parts; through a
    [..] part the operating system goes by the directories that exist at
    that moment, which the statements below leave aside. *)
Definition plain_path (p : path) : Prop := lit ".." ∉ p.2.

#[global] Instance plain_path_dec p : Decision (plain_path p).
Proof. unfold plain_path. apply _. Defined.

(** The entry that a path denotes once the directories it goes through
    exist: a part followed by [..] cancels out. A [..] part stays where it
    leads above the current directory, and vanishes at the root. *)
Fixpoint collapse (anchored : bool) (seen rest : list str) : list str :=
  match rest with
  | [] => seen
  | x :: rest' =>
      if bool_decide (x = lit "..") then
        match last seen with
        | Some y =>
            if bool_decide (y = lit "..") then collapse anchored (seen ++ [x]) rest'
            else collapse anchored (removelast seen) rest'
        | None =>
            if anchored then collapse anchored seen rest'
            else collapse anchored (seen ++ [x]) rest'
        end
      else collapse anchored (seen ++ [x]) rest'
  end.

Definition denoted (p : path) : path := (p.1, collapse p.1 [] p.2).

(** The directories from the project path down to [s], relative to it. *)
Fixpoint dirs_upto (s : list str) : gmap (list str) node :=
  match s with
  | [] => {[ [] := Dir ]}
  | x :: s' => <[ [] := Dir ]> (kmap (cons x) (dirs_upto s'))
  end.

(** The project tree of a finished run, relative to the project path. *)
Definition project_tree (project_name generated_code : str) : gmap (list str) node :=
  list_to_map
    [([], Dir);
     ([lit "src"], Dir);
     ([lit "src"; lit "app"], Dir);
     ([lit "src"; lit "components"], Dir);
     ([lit "public"], Dir);
     ([lit "package.json"], File (json_dump (package_json project_name)));
     ([lit "next.config.js"], File next_config);
     ([lit "tailwind.config.js"], File tailwind_config);
     ([lit "postcss.config.js"], File postcss_config);
     ([lit "tsconfig.json"], File (json_dump ts_config));
     ([lit ".eslintrc.json"], File (json_dump eslint_config));
     ([lit ".gitignore"], File gitignore_content);
     ([lit "README.md"], File (readme_content project_name));
     ([lit "src"; lit "app"; lit "globals.css"], File globals_css);
     ([lit "src"; lit "app"; lit "layout.tsx"], File layout_content);
     ([lit "src"; lit "app"; lit "page.tsx"], File generated_code)].

(** The files a finished run writes, in the order of the script, relative
    to the project path. Only the last entry holds the generated text. *)
Definition project_writes (project_name generated_code : str) : list (list str * str) :=
  [([lit "package.json"], json_dump (package_json project_name));
   ([lit "next.config.js"], next_config);
   ([lit "tailwind.config.js"], tailwind_config);
   ([lit "postcss.config.js"], postcss_config);
   ([lit "tsconfig.json"], json_dump ts_config);
   ([lit ".eslintrc.json"], json_dump eslint_config);
   ([lit ".gitignore"], gitignore_content);
   ([lit "README.md"], readme_content project_name);
   ([lit "src"; lit "app"; lit "globals.css"], globals_css);
   ([lit "src"; lit "app"; lit "layout.tsx"], layout_content);
   ([lit "src"; lit "app"; lit "page.tsx"], generated_code)].

(** An exception handler that logs one error line and answers [False]. *)
Definition reports_false (h : exn → M bool) : Prop :=
  ∀ e w, ∃ msg,
    h e w = (Ok false, {| fs := fs w; faults := faults w;
                          events := events w ++ [ELog ERROR msg] |}).

(** [m] is what the file system [f] holds below the path [P], with the
    paths taken relative to [P]. *)
Definition view (P : path) (f : gmap path node) (m : gmap (list str) node) : Prop :=
  ∀ r, f !! below P r = m !! r.

(** A directory that [mkdir_from a base rest] goes through. *)
Definition created (a : bool) (base rest : list str) (k : path) : Prop :=
  k.1 = a ∧ ∃ t, t ≠ [] ∧ t `prefix_of` rest ∧ k.2 = base ++ t.

(** The directory skeleton as the five [mkdir] calls build it. *)
Definition skeleton : gmap (list str) node :=
  ∅ ∪ dirs_upto [] ∪ dirs_upto [lit "src"] ∪ dirs_upto [lit "src"; lit "app"]
    ∪ dirs_upto [lit "src"; lit "components"] ∪ dirs_upto [lit "public"].

(** Events that change the file system. *)
Definition fs_event (e : event) : bool :=
  match e with
  | ERmtree _ | EMkdir _ | EWrite _ _ => true
  | ELog _ _ | EPrint _ | ENetCall _ => false
  end.

(** The file events of a history, in order. *)
Definition file_events (evs : list event) : list event :=
  filter (λ e, fs_event e = true) evs.

(** Where a run stands at the world [wi], having started from [w0]: the
    file events so far, and what lies below the project path. *)
Definition reached (P : path) (w0 wi : world)
    (done : list event) (m : gmap (list str) node) : Prop :=
  file_events (events wi) = file_events (events w0) ++ done
  ∧ (fs_wf (fs w0) → view P (fs wi) m).

(** The file events of a finished run, in order: the old tree goes first,
    if there was one; then the skeleton; then the files. *)
Definition project_events (P : path) (project_name generated_code : str)
    (existed : bool) : list event :=
  (if existed then [ERmtree P] else [])
  ++ [EMkdir P;
      EMkdir (below P [lit "src"]);
      EMkdir (below P [lit "src"; lit "app"]);
      EMkdir (below P [lit "src"; lit "components"]);
      EMkdir (below P [lit "public"])]
  ++ ((λ f, EWrite (below P f.1) f.2) <$> project_writes project_name generated_code).

(** The files whose text is a constant of the script. *)
Definition static_files : list (list str * str) :=
  [([lit "next.config.js"], next_config);
   ([lit "tailwind.config.js"], tailwind_config);
   ([lit "postcss.config.js"], postcss_config);
   ([lit "tsconfig.json"], json_dump ts_config);
   ([lit ".eslintrc.json"], json_dump eslint_config);
   ([lit ".gitignore"], gitignore_content);
   ([lit "src"; lit "app"; lit "globals.css"], globals_css);
   ([lit "src"; lit "app"; lit "layout.tsx"], layout_content)].

(** The message main logs when no credential is given. *)
Definition key_required : str :=
  lit "OpenAI API key is required. Use --api-key or set OPENAI_API_KEY environment variable.".

(** ** Sample runs *)

(** A service that answers every request with the same content. *)
Definition answering (content : str) : str → request → api_result :=
  λ _ _, Completion [Some content].

(** A service that cannot be reached. *)
Definition unreachable : str → request → api_result :=
  λ _ _, NetworkFailure (lit "Connection error.").

Definition sample_page : str :=
  lit "export default function Page() { return <main>Coffee</main> }".

Definition sample_args : Args :=
  {| input := lit "a landing page for a coffee shop";
     output_dir_arg := lit "./out";
     project_name_arg := lit "coffee-site";
     api_key_arg := Some (lit "sk-test") |}.

Definition sample_config : ProjectConfig :=
  {| project_name := lit "coffee-site";
     output_dir := lit "./out";
     openai_api_key := lit "sk-test" |}.

Definition empty_world : world := {| fs := ∅; faults := []; events := [] |}.

(** The target directory exists and holds files of an earlier project. *)
Definition stale_world : world :=
  {| fs := list_to_map
       [((false, [lit "out"]), Dir);
        ((false, [lit "out"; lit "coffee-site"]), Dir);
        ((false, [lit "out"; lit "coffee-site"; lit "old.txt"]), File (lit "stale"));
        ((false, [lit "out"; lit "coffee-site"; lit "src"]), Dir);
        ((false, [lit "out"; lit "coffee-site"; lit "src"; lit "legacy.js"]), File (lit "stale"));
        ((false, [lit "out"; lit "other"]), Dir);
        ((false, [lit "out"; lit "other"; lit "keep.txt"]), File (lit "kept"))];
     faults := [];
     events := [] |}.

(** The target path is taken by a regular file: [rmtree] will refuse it. *)
Definition blocked_world : world :=
  {| fs := list_to_map
       [((false, [lit "out"]), Dir);
        ((false, [lit "out"; lit "coffee-site"]), File (lit "not a directory"))];
     faults := [];
     events := [] |}.

(** The current directory holds a file of the user; the output directory
    is yet to be made. *)
Definition home_world : world :=
  {| fs := {[ (false, [lit "keep.txt"]) := File (lit "kept") ]};
     faults := []; events := [] |}.

(** The input argument names a file that is not UTF-8 text. *)
Definition blob_world : world :=
  {| fs := {[ (false, [lit "brief.bin"]) := Blob ]}; faults := []; events := [] |}.

(** ** Vocabulary of the further properties *)

(** The side effects of a history (requests and file operations), in order. *)
Definition effects_of (evs : list event) : list event :=
  filter (λ e, side_effect e = true) evs.

(** A chain of [if not step: return False] lines, ending in [return True]. *)
Fixpoint run_steps (steps : list (M bool)) : M bool :=
  match steps with
  | [] => ret true
  | step :: rest => or_return_false step (run_steps rest)
  end.

(** A log line, read as a step that cannot fail. *)
Definition log_step (msg : str) : M bool := logger_info msg ;; ret true.

(** What a step of the materializer does when it succeeds: nothing to the
    file system, or one file written below the project path. *)
Inductive step_kind :=
  | SLog
  | SWrite (rel : list str) (text : str).

Definition writes_of_kinds (ks : list step_kind) : list (list str * str) :=
  omap (λ k, match k with SWrite rel text => Some (rel, text) | SLog => None end) ks.

(** The step [s] behaves as its kind says: a log step answers [True] and
    changes no file; a write step either writes its file and answers
    [True], or answers [False] and changes no file. *)
Definition step_ok (P : path) (s : M bool) (k : step_kind) : Prop :=
  ∀ w r w', s w = (r, w') →
    match k with
    | SLog =>
        r = Ok true ∧ fs w' = fs w ∧ effects_of (events w') = effects_of (events w)
    | SWrite rel text =>
        (r = Ok true
         ∧ fs w' = <[below P rel := File text]> (fs w)
         ∧ effects_of (events w') = effects_of (events w) ++ [EWrite (below P rel) text])
        ∨ (r = Ok false ∧ fs w' = fs w ∧ effects_of (events w') = effects_of (events w))
    end.

(** generate_website after create_project_structure, as a chain of steps. *)
Definition materializer_steps (self : DirectWebsiteGenerator) (generated_code : str)
    : list (M bool) :=
  [log_step (lit "Creating configuration files...");
   create_package_json self;
   create_next_config self;
   create_tailwind_config self;
   create_postcss_config self;
   create_typescript_config self;
   create_eslint_config self;
   create_gitignore self;
   create_readme self;
   log_step (lit "Creating app files...");
   create_globals_css self;
   create_layout_file self;
   create_page_file self generated_code;
   log_step (lit "Website generation completed successfully!");
   log_step (lit "Project location: " ++ path_str (project_path self));
   log_step (lit "To run the project:");
   log_step (lit "  cd " ++ path_str (project_path self));
   log_step (lit "  npm install");
   log_step (lit "  npm run dev")].

Definition materializer_kinds (project_name generated_code : str) : list step_kind :=
  [SLog] ++ (take 8 (uncurry SWrite <$> project_writes project_name generated_code))
  ++ [SLog] ++ (drop 8 (uncurry SWrite <$> project_writes project_name generated_code))
  ++ replicate 6 SLog.

(** The file events of create_project_structure when it succeeds. *)
Definition structure_events (P : path) (existed : bool) : list event :=
  (if existed then [ERmtree P] else [])
  ++ [EMkdir P;
      EMkdir (below P [lit "src"]);
      EMkdir (below P [lit "src"; lit "app"]);
      EMkdir (below P [lit "src"; lit "components"]);
      EMkdir (below P [lit "public"])].

(** The files of [ws], written one after the other below [P]. *)
Definition write_all (P : path) (ws : list (list str * str)) (f : gmap path node)
    : gmap path node :=
  foldl (λ f wr, <[below P wr.1 := File wr.2]> f) f ws.

(** A computation keeps a property of the file system. *)
Definition fs_preserves {A : Type} (J : gmap path node → Prop) (m : M A) : Prop :=
  ∀ w r w', J (fs w) → m w = (r, w') → J (fs w').

(** [q] is the path [P] or a directory above it (the root and the current
    directory apart: they are no entries of the file system). *)
Definition above (P q : path) : Prop := q.1 = P.1 ∧ q.2 ≠ [] ∧ q.2 `prefix_of` P.2.

(** Outside the project path [P], the file system [f] is [f0], but for
    directories above [P] that [f0] lacked. *)
Definition same_outside (P : path) (f0 f : gmap path node) : Prop :=
  ∀ q, ¬ under P q →
       f !! q = f0 !! q ∨ (above P q ∧ f0 !! q = None ∧ f !! q = Some Dir).

(** A part that pathlib keeps as it is: not empty, not [.], without slash. *)
Definition valid_part (x : str) : Prop := x ≠ [] ∧ x ≠ lit "." ∧ slash ∉ x.

(** A character of a plain ASCII text file: printable, or a newline. *)
Definition ascii_text_char (c : char) : Prop := c = nl ∨ (32 ≤ c ∧ c ≤ 126)%N.

#[global] Instance ascii_text_char_dec c : Decision (ascii_text_char c).
Proof. unfold ascii_text_char. apply _. Defined.

(** A character that JSON writes as it is inside a string. *)
Definition json_plain_char (c : char) : Prop :=
  (32 ≤ c ∧ c ≤ 126 ∧ c ≠ 34 ∧ c ≠ 92)%N.

(** package.json up to the value of its name field, and after it. *)
Definition manifest_head : str := take 12 (json_dump (package_json [])).
Definition manifest_tail : str := drop 14 (json_dump (package_json [])).

(** The disk fills up while the project is written: the fifteenth file
    system operation fails. *)
Definition disk_full_world : world :=
  {| fs := ∅;
     faults := replicate 14 None ++ [Some (lit "No space left on device")];
     events := [] |}.

(** * Properties *)

(** ** Strings *)

Example strip_ex : strip ([32; 9] ++ lit "ab c" ++ [nl; 32])%N = lit "ab c".
Proof. reflexivity. Qed.

Example isspace_ex :
  isspace <$> [9; 10; 13; 14; 27; 28; 32; 65; 133; 160; 8202; 8203; 12288]%N
  = [true; true; true; false; false; true; true; false; true; true; true; false; true].
Proof. reflexivity. Qed.

Example split_ex :
  split nl (lit "a" ++ [nl; nl] ++ lit "b") = [lit "a"; []; lit "b"]
  ∧ split nl [] = [[]]
  ∧ split nl (lit "a" ++ [nl]) = [lit "a"; []].
Proof. repeat split; reflexivity. Qed.

Example replace_ex :
  replace (lit "aaa") (lit "aa") (lit "b") = lit "ba"
  ∧ replace (lit "a_b c") (lit "_") (lit "-") = lit "a-b c".
Proof. repeat split; reflexivity. Qed.

Example strip_fences_ex :
  strip_fences (lit "```tsx" ++ [nl] ++ lit "code" ++ [nl] ++ lit "```") = lit "code".
Proof. reflexivity. Qed.

Lemma startswith_nil s : startswith s [] = true.
Proof. by destruct s. Qed.

Lemma startswith_prefix s p : startswith s p = true ↔ p `prefix_of` s.
Proof.
  revert s. induction p as [|a p IH]; intros s.
  - rewrite startswith_nil. split; [intros _; apply prefix_nil | done].
  - destruct s as [|b s]; simpl.
    + split; [done | intros H; by apply prefix_nil_not in H].
    + rewrite andb_true_iff, N.eqb_eq, IH. split.
      * intros [-> H]. by apply prefix_cons.
      * intros H. split; [by apply prefix_cons_inv_1 in H | by apply prefix_cons_inv_2 in H].
Qed.

Lemma startswith_app p r : startswith (p ++ r) p = true.
Proof. apply startswith_prefix. by apply prefix_app_r. Qed.

Lemma split_cons_inv sep s : ∃ l ls, split sep s = l :: ls.
Proof.
  induction s as [|c s (l & ls & IH)]; simpl; [by eauto |].
  destruct (c =? sep)%N; [by eauto |]. rewrite IH. by eauto.
Qed.

Lemma join_cons sep l l' ls : join sep (l :: l' :: ls) = l ++ sep ++ join sep (l' :: ls).
Proof. done. Qed.

Lemma join_cons_char sep c l ls : join sep ((c :: l) :: ls) = c :: join sep (l :: ls).
Proof. by destruct ls. Qed.

(** Joining the lines of a text gives the text back. *)
Lemma join_split sep s : join [sep] (split sep s) = s.
Proof.
  induction s as [|c s IH]; [done |]. cbn [split].
  destruct (split_cons_inv sep s) as (l & ls & E). rewrite E in *.
  destruct (N.eqb_spec c sep) as [->|_].
  - rewrite join_cons, IH. done.
  - by rewrite join_cons_char, IH.
Qed.

Lemma length_join_cons sep l ls : length (join sep ls) ≤ length (join sep (l :: ls)).
Proof.
  destruct ls as [|l' ls]; simpl; [lia |]. rewrite !length_app. lia.
Qed.

Lemma length_join_removelast sep ls :
  length (join sep (removelast ls)) ≤ length (join sep ls).
Proof.
  induction ls as [|l ls IH]; [done |].
  destruct ls as [|l' ls]; [simpl; lia |].
  change (removelast (l :: l' :: ls)) with (l :: removelast (l' :: ls)).
  rewrite join_cons.
  destruct (removelast (l' :: ls)) as [|k ks] eqn:E.
  - simpl. rewrite !length_app. lia.
  - rewrite join_cons, !length_app. lia.
Qed.

(** A prefix without a newline is a prefix of the first line. *)
Lemma startswith_first_line s p :
  nl ∉ p → startswith s p = true →
  ∃ l ls, split nl s = l :: ls ∧ startswith l p = true.
Proof.
  revert s. induction p as [|a p IH]; intros s Hnl H.
  - destruct (split_cons_inv nl s) as (l & ls & E).
    exists l, ls. by rewrite startswith_nil.
  - destruct s as [|b s]; [done |]. simpl in H.
    apply andb_true_iff in H as [Hab H]. apply N.eqb_eq in Hab as <-.
    apply not_elem_of_cons in Hnl as [Ha Hp].
    destruct (IH s Hp H) as (l & ls & E & Hl).
    simpl. destruct (N.eqb_spec a nl) as [->|_]; [done |].
    rewrite E. exists (a :: l), ls. split; [done |].
    simpl. by rewrite N.eqb_refl.
Qed.

Lemma fence_no_newline : nl ∉ fence.
Proof. apply (bool_decide_unpack _). by vm_compute. Qed.

Lemma startswith_length s p : startswith s p = true → length p ≤ length s.
Proof. rewrite startswith_prefix. apply prefix_length. Qed.

(** Stripping a fenced text removes its first line: the text gets shorter. *)
Lemma strip_fences_shorter u :
  startswith u fence = true → length (strip_fences u) < length u.
Proof.
  intros H. unfold strip_fences. rewrite H.
  destruct (startswith_first_line u fence fence_no_newline H) as (l & ls & E & Hl).
  rewrite E, Hl.
  assert (length (join [nl] ls) + 3 ≤ length u) as Hu.
  { rewrite <-(join_split nl u), E.
    apply startswith_length in Hl. change (length fence) with 3 in Hl.
    destruct ls as [|l' ls]; [simpl; lia |].
    rewrite join_cons, !length_app. lia. }
  destruct (last ls) as [k|]; [destruct (startswith k fence) |]; try lia.
  pose proof (length_join_removelast [nl] ls). lia.
Qed.

Lemma lstrip_head s c r : lstrip s = c :: r → isspace c = false.
Proof.
  induction s as [|a s IH]; [done |]. simpl.
  destruct (isspace a) eqn:E; [done |]. by intros [= <- _].
Qed.

Lemma rstrip_head s c r : rstrip s = c :: r → ∃ r', s = c :: r'.
Proof.
  destruct s as [|a s]; [done |]. simpl.
  destruct (rstrip s); [destruct (isspace a) |]; intros [= <- _]; eauto.
Qed.

(** A trimmed text does not begin with white space. *)
Lemma strip_head s c r : strip s = c :: r → isspace c = false.
Proof.
  unfold strip. intros H. apply rstrip_head in H as [r' H].
  by apply lstrip_head in H.
Qed.

Lemma contains_nonempty s sub : sub ≠ [] → contains s sub = true → s ≠ [].
Proof. destruct s, sub; done. Qed.

Lemma has_feature_useState t :
  contains t (lit "useState") = true → has_client_feature t = true.
Proof.
  intros H. unfold has_client_feature, client_features.
  cbn [existsb]. by rewrite H.
Qed.

Lemma contains_startswith s sub : startswith s sub = true → contains s sub = true.
Proof. intros H. destruct s; simpl in *; by rewrite H. Qed.

Lemma contains_app_r p s sub : contains s sub = true → contains (p ++ s) sub = true.
Proof.
  intros H. induction p as [|c p IH]; [done |].
  simpl. by rewrite IH, orb_true_r.
Qed.

Example json_dump_ex :
  json_dump (JDict [(lit "name", JStr (lit "a b" ++ [dquote; 233%N]));
                    (lit "lib", JList [JStr (lit "dom"); JBool true]);
                    (lit "paths", JDict [])])
  = join [nl] (tpl <$>
      ["{";
       "  ~name~: ~a b\~\u00e9~,";
       "  ~lib~: [";
       "    ~dom~,";
       "    true";
       "  ],";
       "  ~paths~: {}";
       "}"]).
Proof. reflexivity. Qed.

Example u_escape_ex :
  escape_char 233 = backslash :: lit "u00e9"
  ∧ escape_char 128640 = backslash :: lit "ud83d" ++ backslash :: lit "ude80"
  ∧ escape_char 127 = backslash :: lit "u007f".
Proof. repeat split; reflexivity. Qed.

Example path_ex :
  Path (lit "./output") /: lit "my-site" = (false, [lit "output"; lit "my-site"])
  ∧ path_str (Path (lit "./output") /: lit "my-site") = lit "output/my-site"
  ∧ Path (lit "out") /: lit "/etc" = (true, [lit "etc"])
  ∧ path_str (Path (lit "")) = lit ".".
Proof. repeat split; reflexivity. Qed.

(** ** The content generator *)

Lemma generate_website_code_run self text_input w :
  generate_website_code self text_input w =
  let w1 := {| fs := fs w; faults := faults w;
               events := events w ++ [ENetCall (chat_request text_input)] |} in
  match completion_outcome (client self (chat_request text_input)) with
  | Ok code => (Ok code, w1)
  | Raise e =>
      (Raise e,
       {| fs := fs w; faults := faults w;
          events := events w1 ++ [ELog ERROR (lit "Error generating code: " ++ exn_str e)] |})
  end.
Proof.
  unfold generate_website_code, try_except, bind, chat_completions_create, emit.
  destruct (client self (chat_request text_input)) as [msg|st msg|[|[content|] choices]];
    reflexivity.
Qed.

(** C1, as the code has it: generate_website_code raises when the
    connection fails, when the service answers with a non-success status,
    and when the completion has no choice or a null content; on any string
    content, the empty string included, it returns the post-processed
    text. *)
Theorem generate_website_code_outcome self text_input w :
  (generate_website_code self text_input w).1 =
  match client self (chat_request text_input) with
  | NetworkFailure msg => Raise (APIConnectionError msg)
  | ErrorStatus status msg => Raise (APIStatusError status msg)
  | Completion [] => Raise IndexError
  | Completion (None :: _) => Raise AttributeError
  | Completion (Some content :: _) => Ok (add_directive (strip_fences (strip content)))
  end.
Proof.
  rewrite generate_website_code_run. unfold completion_outcome.
  destruct (client self (chat_request text_input)) as [msg|st msg|[|[content|] choices]];
    reflexivity.
Qed.

(** C1 fails as stated: when the service returns empty content, the call
    returns normally, with empty module text. *)
Lemma generate_website_code_empty_content :
  let self := {| config := {| project_name := lit "site"; output_dir := lit "./output";
                              openai_api_key := lit "sk" |};
                 client := λ _, Completion [Some []];
                 project_path := (false, [lit "output"; lit "site"]) |} in
  let w := {| fs := ∅; faults := []; events := [] |} in
  (generate_website_code self (lit "a landing page") w).1 = Ok [].
Proof. reflexivity. Qed.

(** C2, as the code has it: the markers are looked for in the text left
    after trimming and fence stripping. When that text contains [useState]
    and does not start with ['use client'], the output is ['use client';],
    a blank line, and that text; and when the trimmed answer had no opening
    fence, the text begins with a character that is not white space, so the
    blank line is the only one. *)
Theorem directive_prepended raw :
  let processed := strip_fences (strip raw) in
  contains processed (lit "useState") = true →
  startswith processed use_client = false →
  postprocess raw = lit "'use client';" ++ [nl; nl] ++ processed
  ∧ (startswith (strip raw) fence = false →
     ∃ c rest, processed = c :: rest ∧ isspace c = false).
Proof.
  intros processed Hin Hstart. split.
  - unfold postprocess, add_directive. fold processed.
    by rewrite (has_feature_useState _ Hin), Hstart.
  - intros Hfence.
    assert (processed = strip raw) as Hp.
    { unfold processed, strip_fences. by rewrite Hfence. }
    destruct processed as [|c rest] eqn:E.
    + by apply contains_nonempty in Hin.
    + exists c, rest. split; [done |]. symmetry in Hp. by apply strip_head in Hp.
Qed.

Lemma directive_prepended_witness :
  postprocess (lit "const [n, setN] = useState(0);" ++ [nl; 32%N]) =
  lit "'use client';" ++ [nl; nl] ++ lit "const [n, setN] = useState(0);".
Proof.
  apply (directive_prepended (lit "const [n, setN] = useState(0);" ++ [nl; 32%N]));
    reflexivity.
Defined.

(** C2 fails as stated. A raw answer that contains [useState] on its
    opening fence line, and does not start with the directive, comes out
    without the directive. And a fenced answer that brings its own
    directive keeps it as it is, with no blank line after it. *)
Lemma directive_missed_on_fence_line :
  let raw := lit "```useState" ++ [nl] ++ lit "export default function Page() {}" in
  let fenced := lit "```tsx" ++ [nl] ++ lit "'use client'" ++ [nl]
                ++ lit "import { useState } from 'react'" ++ [nl] ++ lit "```" in
  (contains raw (lit "useState") = true
   ∧ startswith raw use_client = false
   ∧ postprocess raw = lit "export default function Page() {}"
   ∧ startswith (postprocess raw) use_client = false)
  ∧ (contains fenced (lit "useState") = true
     ∧ startswith fenced use_client = false
     ∧ postprocess fenced = lit "'use client'" ++ [nl] ++ lit "import { useState } from 'react'"
     ∧ startswith (postprocess fenced) use_client_line = false).
Proof. repeat split; reflexivity. Qed.

(** C5, as the code has it: stripping an already stripped text changes
    nothing exactly when the stripped text does not itself begin with a
    fence. *)
Theorem strip_fences_again text :
  strip_fences (strip_fences text) = strip_fences text
  ↔ startswith (strip_fences text) fence = false.
Proof.
  split.
  - intros H. destruct (startswith (strip_fences text) fence) eqn:E; [| done].
    apply strip_fences_shorter in E. rewrite H in E. lia.
  - intros H. unfold strip_fences at 1. by rewrite H.
Qed.

(** C5 fails as stated: a text with two opening fences loses one at each
    pass, whether the second pass is the fence step or the whole pipeline. *)
Lemma strip_fences_not_idempotent :
  let text := lit "```" ++ [nl] ++ lit "```tsx" ++ [nl] ++ lit "code" in
  strip_fences text = lit "```tsx" ++ [nl] ++ lit "code"
  ∧ strip_fences (strip_fences text) = lit "code"
  ∧ strip_fences (strip_fences text) ≠ strip_fences text
  ∧ postprocess (strip_fences text) ≠ strip_fences text.
Proof. repeat split; try reflexivity; discriminate. Qed.

(** C9: on a text with an interactivity marker, nothing is prepended
    exactly when the text starts with the twelve characters ['use client']
    (whatever follows them, semicolon or not); a text that starts with the
    directive in double quotes gets the single-quoted directive in front,
    and then carries both. *)
Theorem directive_guard code :
  has_client_feature code = true →
  (add_directive code = code ↔ startswith code use_client = true)
  ∧ length use_client = 12
  ∧ (∀ rest, add_directive (use_client ++ rest) = use_client ++ rest)
  ∧ (startswith code use_client_dquoted = true →
     add_directive code = lit "'use client';" ++ [nl; nl] ++ code
     ∧ startswith (add_directive code) use_client = true
     ∧ contains (add_directive code) use_client_dquoted = true).
Proof.
  intros Hf. split; [| split; [done | split]].
  - unfold add_directive. rewrite Hf.
    destruct (startswith code use_client); simpl; [done |].
    split; [| done]. intros H. apply (f_equal length) in H.
    rewrite ?length_app in H. simpl in H. lia.
  - intros rest. unfold add_directive.
    rewrite startswith_app. by rewrite andb_false_r.
  - intros Hd.
    assert (startswith code use_client = false) as Hs.
    { pose proof Hd as Hp. apply startswith_prefix in Hp as [r ->]. done. }
    assert (add_directive code = lit "'use client';" ++ [nl; nl] ++ code) as ->.
    { unfold add_directive. by rewrite Hf, Hs. }
    split; [done | split; [done |]].
    rewrite app_assoc. by apply contains_app_r, contains_startswith.
Qed.

Lemma directive_guard_witness :
  add_directive (use_client_dquoted ++ [nl] ++ lit "const a = useState(0)")
  = lit "'use client';" ++ [nl; nl] ++ use_client_dquoted ++ [nl] ++ lit "const a = useState(0)".
Proof.
  apply (directive_guard (use_client_dquoted ++ [nl] ++ lit "const a = useState(0)"));
    reflexivity.
Defined.
(** ** Path parts *)

Lemma split_app sep a b : split sep (a ++ sep :: b) = split sep a ++ split sep b.
Proof.
  induction a as [|c a IH]; simpl.
  - by rewrite N.eqb_refl.
  - rewrite IH. destruct (c =? sep)%N; [done |].
    by destruct (split_cons_inv sep a) as (l & ls & ->).
Qed.

Lemma split_no_sep sep s : sep ∉ s → split sep s = [s].
Proof.
  induction s as [|c s IH]; [done |]. intros H.
  apply not_elem_of_cons in H as [Hc Hs]. simpl.
  destruct (N.eqb_spec c sep) as [->|_]; [done |]. by rewrite IH.
Qed.

Lemma startswith_slash_false name : slash ∉ name → startswith name [slash] = false.
Proof.
  destruct name as [|c name]; [done |]. intros H.
  apply not_elem_of_cons in H as [H _]. cbn [startswith].
  destruct (N.eqb_spec slash c) as [E|E]; [by destruct H | done].
Qed.

Lemma filter_all {A} (P : A → Prop) `{∀ x, Decision (P x)} (l : list A) :
  Forall P l → filter P l = l.
Proof.
  induction 1 as [|x l Hx _ IH]; [done |].
  by rewrite filter_cons_True, IH.
Qed.

Lemma valid_part_keep parts :
  Forall valid_part parts → filter (λ x, x ≠ [] ∧ x ≠ lit ".") parts = parts.
Proof.
  intros H. apply filter_all. eapply Forall_impl; [exact H |].
  by intros x (? & ? & _).
Qed.

Lemma path_parts_single name :
  valid_part name → path_parts name = [name].
Proof.
  intros (H1 & H2 & H3). unfold path_parts. rewrite split_no_sep by done.
  by rewrite filter_cons_True, filter_nil.
Qed.

Lemma split_parts_no_sep sep s : Forall (λ l, sep ∉ l) (split sep s).
Proof.
  induction s as [|c s IH]; simpl.
  - constructor; [apply not_elem_of_nil | constructor].
  - destruct (N.eqb_spec c sep) as [->|Hne].
    + constructor; [apply not_elem_of_nil | done].
    + destruct (split sep s) as [|l ls].
      { constructor; [| constructor]. intros Hc. by apply list_elem_of_singleton in Hc. }
      apply Forall_cons in IH as [Hl Hls]. constructor; [| done].
      intros H. apply elem_of_cons in H as [H|H]; [by subst | done].
Qed.

Lemma path_parts_valid s : Forall valid_part (path_parts s).
Proof.
  unfold path_parts. apply Forall_forall. intros x Hx.
  apply list_elem_of_filter in Hx as [[H1 H2] Hx].
  split_and!; [done | done |].
  pose proof (split_parts_no_sep slash s) as H. rewrite Forall_forall in H. by apply H.
Qed.

Lemma path_parts_single_inv name :
  path_parts name = [name] → valid_part name.
Proof.
  intros H. pose proof (path_parts_valid name) as Hv. rewrite H in Hv.
  by apply Forall_cons in Hv as [? _].
Qed.

(** A name is the single part of its own path, and not [..], exactly when
    it is not empty, is neither [.] nor [..], and has no slash. *)
Lemma names_one_directory_iff name :
  names_one_directory name = true ↔ valid_part name ∧ name ≠ lit "..".
Proof.
  unfold names_one_directory.
  rewrite andb_true_iff, negb_true_iff, bool_decide_eq_true, bool_decide_eq_false.
  split.
  - intros [HP Hne]. split; [| done]. apply path_parts_single_inv.
    unfold Path in HP. by injection HP.
  - intros [Hv Hne]. split; [| done]. unfold Path.
    rewrite path_parts_single by done. destruct Hv as (_ & _ & Hs).
    by rewrite startswith_slash_false.
Qed.

Lemma collapse_plain anchored seen rest :
  lit ".." ∉ rest → collapse anchored seen rest = seen ++ rest.
Proof.
  revert seen. induction rest as [|x rest IH]; intros seen H.
  - by rewrite app_nil_r.
  - apply not_elem_of_cons in H as [Hx H]. cbn [collapse].
    rewrite bool_decide_eq_false_2 by done.
    by rewrite IH, <-app_assoc.
Qed.

(** A plain path denotes the entry kept under its parts. *)
Lemma denoted_plain p : plain_path p → denoted p = p.
Proof.
  intros H. unfold denoted. rewrite collapse_plain by done. by destruct p.
Qed.


(** ** The project name *)

Lemma replace_char s a b :
  replace s [a] [b] = (λ c, if (a =? c)%N then b else c) <$> s.
Proof.
  unfold replace. induction s as [|c s IH]; [done |].
  cbn [replace_from startswith fmap list_fmap length].
  change (1 - 1) with 0. rewrite IH, startswith_nil, andb_true_r.
  by destruct (a =? c)%N.
Qed.

Lemma hyphenate_twice c :
  (if (95 =? (if (32 =? c) then 45 else c)) then 45 else (if (32 =? c) then 45 else c))%N
  = hyphenate c.
Proof.
  unfold hyphenate. rewrite (N.eqb_sym c 32), (N.eqb_sym c 95).
  destruct (N.eqb_spec 32 c) as [<-|]; [done |]. simpl.
  by destruct (95 =? c)%N.
Qed.

Lemma clean_project_name_map unicode_lower name :
  clean_project_name unicode_lower name = hyphenate <$> lower unicode_lower name.
Proof.
  unfold clean_project_name.
  change (lit " ") with [32%N]. change (lit "_") with [95%N]. change (lit "-") with [45%N].
  rewrite !replace_char, <-list_fmap_compose.
  apply list_fmap_ext. intros _ c _. apply hyphenate_twice.
Qed.

Lemma hyphenate_clean c : hyphenate c ≠ 32%N ∧ hyphenate c ≠ 95%N.
Proof.
  unfold hyphenate.
  destruct (N.eqb_spec c 32); [done |]. destruct (N.eqb_spec c 95); done.
Qed.

(** C7, as the code has it: the name is lowercased, then every space and
    every underscore becomes a hyphen, so the result has neither; on an
    ASCII name the letters A-Z become a-z; and ["My Cool Site"] gives
    ["my-cool-site"]. Every other character is kept as it is, and nothing
    is checked: the result names one directory directly below the output
    directory exactly when it is not empty, is neither [.] nor [..], and
    has no slash. *)
Theorem clean_project_name_spec unicode_lower name :
  clean_project_name unicode_lower name = hyphenate <$> lower unicode_lower name
  ∧ Forall (λ c, c ≠ 32%N ∧ c ≠ 95%N) (clean_project_name unicode_lower name)
  ∧ (forallb is_ascii name = true →
     clean_project_name unicode_lower name = (hyphenate ∘ ascii_lower) <$> name)
  ∧ clean_project_name unicode_lower (lit "My Cool Site") = lit "my-cool-site"
  ∧ (names_one_directory (clean_project_name unicode_lower name) = true
     ↔ clean_project_name unicode_lower name ≠ []
       ∧ clean_project_name unicode_lower name ≠ lit "."
       ∧ clean_project_name unicode_lower name ≠ lit ".."
       ∧ slash ∉ clean_project_name unicode_lower name)
  ∧ (names_one_directory (clean_project_name unicode_lower name) = true →
     ∀ output_dir,
       Path output_dir /: clean_project_name unicode_lower name
       = below (Path output_dir) [clean_project_name unicode_lower name]).
Proof.
  split; [apply clean_project_name_map |].
  split.
  { rewrite clean_project_name_map. apply Forall_fmap, Forall_true.
    intros c. apply hyphenate_clean. }
  split.
  { intros H. rewrite clean_project_name_map. unfold lower.
    by rewrite H, list_fmap_compose. }
  split; [reflexivity |].
  split.
  - rewrite names_one_directory_iff. unfold valid_part. tauto.
  - intros H output_dir. apply andb_true_iff in H as [H _].
    apply bool_decide_eq_true in H. unfold path_join. by rewrite H.
Qed.

Lemma clean_project_name_spec_witness :
  clean_project_name ascii_table_only (lit "Coffee_Site 2")
  = (hyphenate ∘ ascii_lower) <$> lit "Coffee_Site 2"
  ∧ Path (lit "./output") /: clean_project_name ascii_table_only (lit "Coffee_Site 2")
    = below (Path (lit "./output")) [lit "coffee-site-2"].
Proof.
  destruct (clean_project_name_spec ascii_table_only (lit "Coffee_Site 2"))
    as (_ & _ & Ha & _ & _ & Hd).
  split; [apply Ha; reflexivity | apply Hd; reflexivity].
Defined.

(** C7 fails as stated: the cleaned name is not always safe for the file
    system. A slash and a [..] pass through, and the project path then
    leaves the output directory. *)
Lemma clean_project_name_unsafe :
  let name := clean_project_name ascii_table_only (lit "../Demo Site") in
  name = lit "../demo-site"
  ∧ names_one_directory name = false
  ∧ Path (lit "./output") /: name = (false, [lit "output"; lit ".."; lit "demo-site"]).
Proof. repeat split; by vm_compute. Qed.

(** ** Runs: inversion of the monad's operations *)

Lemma bind_inv {A B} (m : M A) (k : A → M B) w b w' :
  bind m k w = (Ok b, w') → ∃ a w1, m w = (Ok a, w1) ∧ k a w1 = (Ok b, w').
Proof. unfold bind. destruct (m w) as [[a|e] w1]; [eauto | done]. Qed.

Lemma try_except_true (m : M bool) h w w' :
  reports_false h → try_except m h w = (Ok true, w') → m w = (Ok true, w').
Proof.
  intros Hh. unfold try_except. destruct (m w) as [[a|e] w1]; [congruence |].
  destruct (Hh e w1) as [msg ->]. done.
Qed.

Lemma try_except_total {A} (m : M A) h w :
  (∀ e w1, ∃ a w2, h e w1 = (Ok a, w2)) → ∃ a w', try_except m h w = (Ok a, w').
Proof.
  intros Hh. unfold try_except. destruct (m w) as [[a|e] w1]; eauto.
Qed.

Lemma or_return_false_true step rest w w' :
  or_return_false step rest w = (Ok true, w') →
  ∃ w1, step w = (Ok true, w1) ∧ rest w1 = (Ok true, w').
Proof.
  intros H. apply bind_inv in H as ([] & w1 & Hs & Hr); [eauto | done].
Qed.

Lemma handler_reports_false prefix :
  reports_false (λ e, logger_error (prefix ++ exn_str e) ;; ret false).
Proof. intros e w. by eexists. Qed.

Lemma emit_inv e w r w' :
  emit e w = (r, w') →
  r = Ok tt ∧ fs w' = fs w ∧ faults w' = faults w ∧ events w' = events w ++ [e].
Proof. by intros [= <- <-]. Qed.

Lemma writes_of_app l1 l2 : writes_of (l1 ++ l2) = writes_of l1 ++ writes_of l2.
Proof. apply omap_app. Qed.

Lemma file_events_snoc l e :
  file_events (l ++ [e]) = file_events l ++ (if fs_event e then [e] else []).
Proof.
  unfold file_events. rewrite filter_app. f_equal.
  destruct (fs_event e) eqn:E.
  - by rewrite filter_cons_True.
  - rewrite filter_cons_False; [done | by rewrite E].
Qed.

Lemma writes_of_file_events l : writes_of (file_events l) = writes_of l.
Proof.
  induction l as [|e l IH]; [done |]. unfold file_events in *.
  destruct e; rewrite ?filter_cons_True, ?filter_cons_False by done;
    simpl; by rewrite IH.
Qed.

Lemma logger_info_inv msg w w' :
  logger_info msg w = (Ok tt, w') →
  fs w' = fs w ∧ file_events (events w') = file_events (events w).
Proof.
  intros H. apply emit_inv in H as (_ & ? & _ & E).
  split; [done |]. rewrite E, file_events_snoc. simpl. by rewrite app_nil_r.
Qed.

Lemma next_fault_inv w w' : next_fault w = (Ok tt, w') → fs w' = fs w ∧ events w' = events w.
Proof.
  unfold next_fault. destruct (faults w) as [|[msg|] fl]; by intros [= <-].
Qed.

Lemma write_text_inv p text w w' :
  write_text p text w = (Ok tt, w') →
  fs w' = <[p := File text]> (fs w) ∧ events w' = events w ++ [EWrite p text].
Proof.
  unfold write_text. intros H.
  apply bind_inv in H as ([] & w1 & H1 & H).
  apply next_fault_inv in H1 as [<- <-].
  unfold raise, bind, set_fs, emit in H.
  repeat case_match; simplify_eq; done.
Qed.

Lemma mkdir_inv p w w' :
  mkdir p w = (Ok tt, w') →
  mkdir_from p.1 [] p.2 (fs w) = Ok (fs w') ∧ events w' = events w ++ [EMkdir p].
Proof.
  unfold mkdir. intros H.
  apply bind_inv in H as ([] & w1 & H1 & H).
  apply next_fault_inv in H1 as [<- <-].
  unfold raise, bind, set_fs, emit in H.
  repeat case_match; simplify_eq; done.
Qed.

Lemma rmtree_inv p w w' :
  rmtree p w = (Ok tt, w') →
  p.2 ≠ [] ∧ fs w' = filter (λ kv, ¬ under p kv.1) (fs w)
  ∧ events w' = events w ++ [ERmtree p].
Proof.
  unfold rmtree. intros H.
  apply bind_inv in H as ([] & w1 & H1 & H).
  apply next_fault_inv in H1 as [<- <-].
  unfold raise, bind, set_fs, emit in H.
  destruct p as [a [|x ps]]; simpl in H; [done |].
  destruct (fs w1 !! (a, x :: ps)) as [[| |]|]; simplify_eq; done.
Qed.

(** ** The file system below the project path *)

Lemma below_nil p : below p [] = p.
Proof. destruct p as [a ps]. unfold below. simpl. by rewrite app_nil_r. Qed.

Lemma below_inj p r1 r2 : below p r1 = below p r2 → r1 = r2.
Proof. unfold below. intros [= H]. by apply app_inv_head in H. Qed.

Lemma path_join_1 p a : Path a = (false, [a]) → p /: a = below p [a].
Proof. unfold path_join. by intros ->. Qed.

Lemma path_join_2 p a b :
  Path a = (false, [a]) → Path b = (false, [b]) → p /: a /: b = below p [a; b].
Proof.
  intros Ha Hb. rewrite (path_join_1 p a Ha), (path_join_1 _ b Hb).
  unfold below. simpl. by rewrite <-app_assoc.
Qed.

Lemma path_join_3 p a b c :
  Path a = (false, [a]) → Path b = (false, [b]) → Path c = (false, [c]) →
  p /: a /: b /: c = below p [a; b; c].
Proof.
  intros Ha Hb Hc. rewrite (path_join_2 p a b Ha Hb), (path_join_1 _ c Hc).
  unfold below. simpl. by rewrite <-app_assoc.
Qed.

(** After [rmtree] nothing is left at the path or below it. *)
Lemma view_rmtree P f : view P (filter (λ kv, ¬ under P kv.1) f) ∅.
Proof.
  intros r. rewrite lookup_empty. apply map_lookup_filter_None. right.
  intros n _ Hn. apply Hn. split; [done |]. by apply prefix_app_r.
Qed.

Lemma fs_wf_parent f a k x n :
  fs_wf f → k ≠ [] → f !! (a, k ++ [x]) = Some n → f !! (a, k) = Some Dir.
Proof.
  intros Hwf Hk Hn. specialize (Hwf _ _ Hn).
  unfold parent_is_dir, parent in Hwf. simpl in Hwf.
  rewrite removelast_last in Hwf. by destruct Hwf.
Qed.

(** In a tree, nothing lies below a path that does not exist. *)
Lemma view_absent P f : fs_wf f → P.2 ≠ [] → f !! P = None → view P f ∅.
Proof.
  intros Hwf HP Hnone r. rewrite lookup_empty.
  induction r as [|x r IH] using rev_ind.
  - by rewrite below_nil.
  - destruct (f !! below P (r ++ [x])) as [n|] eqn:E; [| done].
    unfold below in E. rewrite app_assoc in E.
    apply fs_wf_parent in E; [| done |].
    + unfold below in IH. congruence.
    + intros H. apply app_eq_nil in H as [? _]. done.
Qed.

Lemma view_insert P f m rel n :
  view P f m → view P (<[below P rel := n]> f) (<[rel := n]> m).
Proof.
  intros Hv r. rewrite !lookup_insert.
  destruct (decide (rel = r)) as [->|Hne].
  - by rewrite decide_True.
  - rewrite decide_False; [apply Hv |]. intros H. by apply below_inj in H.
Qed.

Lemma created_step a base x rest k :
  k ≠ (a, base ++ [x]) →
  created a base (x :: rest) k ↔ created a (base ++ [x]) rest k.
Proof.
  intros Hk. destruct k as [b ks]. unfold created. simpl in *. split.
  - intros [-> (t & Ht & Hp & ->)]. split; [done |].
    destruct t as [|y t]; [done |].
    pose proof (prefix_cons_inv_1 _ _ _ _ Hp) as ->.
    apply prefix_cons_inv_2 in Hp.
    exists t. split_and!; [| done | by rewrite <-app_assoc].
    intros ->. by apply Hk.
  - intros [-> (t & Ht & Hp & ->)]. split; [done |].
    exists (x :: t). split_and!; [done | by apply prefix_cons | by rewrite <-app_assoc].
Qed.

Lemma created_first a base x rest : created a base (x :: rest) (a, base ++ [x]).
Proof.
  split; [done |]. exists [x]. split_and!; [done | | done].
  apply prefix_cons, prefix_nil.
Qed.

Lemma created_nil a base k : ¬ created a base [] k.
Proof. intros [_ (t & Ht & Hp & _)]. by apply prefix_nil_inv in Hp. Qed.

(** What [mkdir_from] leaves at each path: what was there stays, and the
    directories it goes through are there. *)
Lemma mkdir_from_lookup a base rest f f' k :
  mkdir_from a base rest f = Ok f' →
  (∀ n, f !! k = Some n → f' !! k = Some n)
  ∧ (f !! k = None → created a base rest k → f' !! k = Some Dir)
  ∧ (f !! k = None → ¬ created a base rest k → f' !! k = None).
Proof.
  revert base f. induction rest as [|x rest IH]; intros base f H.
  - simpl in H. injection H as <-. split_and!; [done | | done].
    intros _ Hc. by apply created_nil in Hc.
  - simpl in H.
    destruct (decide (k = (a, base ++ [x]))) as [->|Hk].
    + destruct (f !! (a, base ++ [x])) as [[| |]|] eqn:E; try (by destruct rest).
      * destruct (IH _ _ H) as (H1 & _ & _). split_and!; [| done | done].
        intros n [= <-]. by apply H1.
      * destruct (IH _ _ H) as (H1 & _ & _). split_and!; [done | | ].
        -- intros _ _. apply H1. by rewrite lookup_insert_eq.
        -- intros _ Hc. destruct Hc. apply created_first.
    + assert (∃ f1, mkdir_from a (base ++ [x]) rest f1 = Ok f' ∧ f1 !! k = f !! k)
        as (f1 & H1 & Hf1).
      { destruct (f !! (a, base ++ [x])) as [[| |]|] eqn:E; try (by destruct rest).
        - by exists f.
        - eexists. split; [done |]. by rewrite lookup_insert_ne. }
      destruct (IH _ _ H1) as (Ha & Hb & Hc). rewrite Hf1 in *.
      split_and!; [done | |].
      * intros Hn Hcr. apply Hb; [done |]. by apply created_step.
      * intros Hn Hcr. apply Hc; [done |]. intros Hcr'. apply Hcr. by apply created_step.
Qed.

Lemma dirs_upto_lookup s r :
  dirs_upto s !! r = if bool_decide (r `prefix_of` s) then Some Dir else None.
Proof.
  revert r. induction s as [|x s IH]; intros r; simpl.
  - destruct r as [|y r].
    + by rewrite lookup_singleton_eq.
    + rewrite lookup_singleton_ne by done. rewrite bool_decide_false; [done |].
      intros H. by apply prefix_nil_inv in H.
  - destruct r as [|y r].
    + rewrite lookup_insert_eq. rewrite bool_decide_true; [done | apply prefix_nil].
    + rewrite lookup_insert_ne by done.
      destruct (decide (y = x)) as [->|Hne].
      * rewrite (lookup_kmap (cons x)), IH.
        apply (f_equal (λ b : bool, if b then Some Dir else None)).
        apply bool_decide_ext. split; [apply prefix_cons | apply prefix_cons_inv_2].
      * rewrite bool_decide_false.
        -- apply lookup_kmap_None; [apply _ |]. intros i [= ? _]. done.
        -- intros H. by apply prefix_cons_inv_1 in H.
Qed.

Lemma created_below P s r :
  P.2 ≠ [] → created P.1 [] (P.2 ++ s) (below P r) ↔ r `prefix_of` s.
Proof.
  intros HP. unfold created, below. simpl. split.
  - intros [_ (t & _ & Hp & Ht)]. simpl in Ht. subst t. by apply prefix_app_inv in Hp.
  - intros Hp. split; [done |]. exists (P.2 ++ r). split_and!; [| by apply prefix_app | done].
    intros H. apply app_eq_nil in H as [? _]. done.
Qed.

(** [mkdir] on a path at or below the project path, seen from there. *)
Lemma view_mkdir P s f f' m :
  P.2 ≠ [] → view P f m →
  mkdir_from P.1 [] (P.2 ++ s) f = Ok f' →
  view P f' (m ∪ dirs_upto s).
Proof.
  intros HP Hv H r.
  destruct (mkdir_from_lookup _ _ _ _ _ (below P r) H) as (Ha & Hb & Hc).
  rewrite (Hv r) in Ha, Hb, Hc.
  destruct (m !! r) as [n|] eqn:E.
  - rewrite (Ha n eq_refl). symmetry. by apply lookup_union_Some_l.
  - rewrite lookup_union_r, dirs_upto_lookup by done.
    case_bool_decide as Hp.
    + apply Hb; [done |]. by apply created_below.
    + apply Hc; [done |]. intros Hcr. apply Hp. by apply (created_below P s r).
Qed.

(** ** The materializer, step by step *)

Lemma reached_log P w0 wi wj done m msg :
  reached P w0 wi done m → logger_info msg wi = (Ok tt, wj) →
  reached P w0 wj done m.
Proof.
  intros [Hw Hv] H. apply logger_info_inv in H as [Hfs Hev].
  split; [congruence |]. intros Hwf. rewrite Hfs. by apply Hv.
Qed.

Lemma reached_mkdir P w0 wi wj done m s :
  (P.2 ≠ []) → reached P w0 wi done m → mkdir (below P s) wi = (Ok tt, wj) →
  reached P w0 wj (done ++ [EMkdir (below P s)]) (m ∪ dirs_upto s).
Proof.
  intros HP [Hw Hv] H. apply mkdir_inv in H as [Hmk Hev]. split.
  - by rewrite Hev, file_events_snoc, Hw, app_assoc.
  - intros Hwf. by eapply view_mkdir; [| apply Hv |].
Qed.

(** One [create_...] method: a guarded write, with or without a log line
    after it. *)
Lemma reached_write P w0 wi wj done m p rel text (k : M bool) h :
  reports_false h →
  p = below P rel →
  (k = ret true ∨ ∃ msg, k = (logger_info msg ;; ret true)) →
  reached P w0 wi done m →
  try_except (write_text p text ;; k) h wi = (Ok true, wj) →
  reached P w0 wj (done ++ [EWrite (below P rel) text]) (<[rel := File text]> m).
Proof.
  intros Hh -> Hk [Hw Hv] H. apply try_except_true in H; [| done].
  apply bind_inv in H as ([] & w1 & Hwr & H).
  apply write_text_inv in Hwr as [Hfs Hev].
  assert (reached P w0 w1 (done ++ [EWrite (below P rel) text]) (<[rel := File text]> m)) as Hr.
  { split.
    - by rewrite Hev, file_events_snoc, Hw, app_assoc.
    - intros Hwf. rewrite Hfs. by apply view_insert, Hv. }
  destruct Hk as [->|[msg ->]].
  - by injection H as <-.
  - apply bind_inv in H as ([] & w2 & Hlog & H). injection H as <-.
    by eapply reached_log.
Qed.

Lemma create_project_structure_true self w0 wi wj done :
  let P := project_path self in
  file_events (events wi) = file_events (events w0) ++ done →
  fs wi = fs w0 →
  create_project_structure self wi = (Ok true, wj) →
  P.2 ≠ []
  ∧ reached P w0 wj
      (done ++ (if bool_decide (is_Some (fs w0 !! P)) then [ERmtree P] else [])
       ++ [EMkdir P;
           EMkdir (below P [lit "src"]);
           EMkdir (below P [lit "src"; lit "app"]);
           EMkdir (below P [lit "src"; lit "components"]);
           EMkdir (below P [lit "public"])])
      skeleton.
Proof.
  intros P Hw Hfs H. unfold create_project_structure in H. fold P in H.
  apply try_except_true in H; [| apply handler_reports_false].
  apply bind_inv in H as ([] & w1 & Hlog & H).
  apply logger_info_inv in Hlog as [Hfs1 Hw1].
  apply bind_inv in H as (there & w2 & Hex & H). injection Hex as <- <-.
  apply bind_inv in H as ([] & w3 & Hrm & H).
  assert (P.2 ≠ []
          ∧ reached P w0 w3
              (done ++ (if bool_decide (is_Some (fs w0 !! P)) then [ERmtree P] else [])) ∅)
    as [HP Hr].
  { destruct (bool_decide (P.2 = []) || bool_decide (is_Some (fs w1 !! P))) eqn:E.
    - apply rmtree_inv in Hrm as (HP & Hf & Hev). split; [done |].
      rewrite bool_decide_eq_false_2 in E by done. simpl in E.
      rewrite Hfs1, Hfs in E. rewrite E. split.
      + rewrite Hev, file_events_snoc, Hw1, Hw, app_assoc. done.
      + intros _. rewrite Hf. apply view_rmtree.
    - injection Hrm as <-. apply orb_false_iff in E as [E1 E2].
      rewrite Hfs1, Hfs in E2. rewrite E2, app_nil_r.
      apply bool_decide_eq_false in E1, E2. split; [done |]. split; [congruence |].
      intros Hwf. rewrite Hfs1, Hfs. apply view_absent; [done | done |].
      by apply eq_None_not_Some. }
  split; [done |].
  cbn [for_each] in H.
  rewrite (path_join_2 P (lit "src") (lit "app")),
    (path_join_2 P (lit "src") (lit "components")),
    (path_join_1 P (lit "src")), (path_join_1 P (lit "public")) in H
    by reflexivity.
  rewrite <-(below_nil P) in H at 1.
  apply bind_inv in H as ([] & w4 & Hdirs & H).
  apply bind_inv in Hdirs as ([] & v1 & Hd1 & Hdirs).
  apply bind_inv in Hdirs as ([] & v2 & Hd2 & Hdirs).
  apply bind_inv in Hdirs as ([] & v3 & Hd3 & Hdirs).
  apply bind_inv in Hdirs as ([] & v4 & Hd4 & Hdirs).
  apply bind_inv in Hdirs as ([] & v5 & Hd5 & Hdirs). injection Hdirs as <-.
  apply bind_inv in H as ([] & w5 & Hlog & H). injection H as <-.
  eapply reached_log; [| done].
  pose proof (reached_mkdir _ _ _ _ _ _ _ HP Hr Hd1) as R1.
  pose proof (reached_mkdir _ _ _ _ _ _ _ HP R1 Hd2) as R2.
  pose proof (reached_mkdir _ _ _ _ _ _ _ HP R2 Hd3) as R3.
  pose proof (reached_mkdir _ _ _ _ _ _ _ HP R3 Hd4) as R4.
  pose proof (reached_mkdir _ _ _ _ _ _ _ HP R4 Hd5) as R5.
  rewrite below_nil, <-!app_assoc in R5. exact R5.
Qed.

Lemma skeleton_list :
  skeleton =
  list_to_map
    [([lit "public"], Dir); ([lit "src"; lit "components"], Dir);
     ([lit "src"; lit "app"], Dir); ([lit "src"], Dir); ([], Dir)].
Proof. apply (bool_decide_unpack _). by vm_compute. Qed.

Lemma project_tree_built c1 c2 c3 c4 c5 c6 c7 c8 c9 c10 c11 :
  <[ [lit "src"; lit "app"; lit "page.tsx"] := File c11 ]>
  (<[ [lit "src"; lit "app"; lit "layout.tsx"] := File c10 ]>
  (<[ [lit "src"; lit "app"; lit "globals.css"] := File c9 ]>
  (<[ [lit "README.md"] := File c8 ]>
  (<[ [lit ".gitignore"] := File c7 ]>
  (<[ [lit ".eslintrc.json"] := File c6 ]>
  (<[ [lit "tsconfig.json"] := File c5 ]>
  (<[ [lit "postcss.config.js"] := File c4 ]>
  (<[ [lit "tailwind.config.js"] := File c3 ]>
  (<[ [lit "next.config.js"] := File c2 ]>
  (<[ [lit "package.json"] := File c1 ]> skeleton))))))))))
  = list_to_map
      [([], Dir);
       ([lit "src"], Dir);
       ([lit "src"; lit "app"], Dir);
       ([lit "src"; lit "components"], Dir);
       ([lit "public"], Dir);
       ([lit "package.json"], File c1);
       ([lit "next.config.js"], File c2);
       ([lit "tailwind.config.js"], File c3);
       ([lit "postcss.config.js"], File c4);
       ([lit "tsconfig.json"], File c5);
       ([lit ".eslintrc.json"], File c6);
       ([lit ".gitignore"], File c7);
       ([lit "README.md"], File c8);
       ([lit "src"; lit "app"; lit "globals.css"], File c9);
       ([lit "src"; lit "app"; lit "layout.tsx"], File c10);
       ([lit "src"; lit "app"; lit "page.tsx"], File c11)].
Proof.
  rewrite skeleton_list.
  match goal with
  | |- _ = list_to_map ?L =>
      change (list_to_map (M := gmap (list str) node) (reverse L) = list_to_map L)
  end.
  apply list_to_map_proper; [| apply reverse_Permutation].
  apply (bool_decide_unpack _). by vm_compute.
Qed.

Ltac guarded_write_step P H w' Hr Hs :=
  apply or_return_false_true in H as (w' & Hs & H);
  eapply (reached_write P) in Hs;
  [ | apply handler_reports_false
    | first [ apply path_join_1; reflexivity | apply path_join_3; reflexivity ]
    | first [ by left | right; by eexists ]
    | exact Hr ].

Lemma snoc_eleven {A} (pre : list A) a1 a2 a3 a4 a5 a6 a7 a8 a9 a10 a11 :
  ((((((((((pre ++ [a1]) ++ [a2]) ++ [a3]) ++ [a4]) ++ [a5]) ++ [a6]) ++ [a7])
      ++ [a8]) ++ [a9]) ++ [a10]) ++ [a11]
  = pre ++ [a1; a2; a3; a4; a5; a6; a7; a8; a9; a10; a11].
Proof. by rewrite <-!app_assoc. Qed.

(** A run of generate_website that answers [True]: the generation returned
    a text, the project path is not the current directory or the root, the
    file operations were those of the script in its order, and (in a file
    system that is a tree) the project tree is all there is below the
    project path. *)
Lemma generate_website_true self text_input w w' :
  let P := project_path self in
  let name := project_name (config self) in
  generate_website self text_input w = (Ok true, w') →
  ∃ code,
    completion_outcome (client self (chat_request text_input)) = Ok code
    ∧ P.2 ≠ []
    ∧ reached P w w'
        (project_events P name code (bool_decide (is_Some (fs w !! P))))
        (project_tree name code).
Proof.
  intros P name H. unfold generate_website in H. fold P in H.
  apply try_except_true in H; [| apply handler_reports_false].
  apply bind_inv in H as ([] & w1 & Hl1 & H).
  apply bind_inv in H as ([] & w2 & Hl2 & H).
  apply bind_inv in H as (code & w3 & Hgen & H).
  rewrite generate_website_code_run in Hgen. cbv zeta in Hgen.
  destruct (completion_outcome (client self (chat_request text_input))) as [c|e] eqn:Hc;
    [| done].
  injection Hgen as -> <-. exists code. split; [done |].
  apply logger_info_inv in Hl1 as [Hf1 He1]. apply logger_info_inv in Hl2 as [Hf2 He2].
  apply or_return_false_true in H as (w4 & Hs & H).
  apply (create_project_structure_true self w _ _ []) in Hs as [HP Hr];
    [| simpl; rewrite file_events_snoc, !app_nil_r; congruence | simpl; congruence].
  split; [done |]. fold P in Hr. rewrite app_nil_l in Hr.
  apply bind_inv in H as ([] & w5 & Hl & H). pose proof (reached_log _ _ _ _ _ _ _ Hr Hl) as Hr5.
  unfold create_package_json, create_next_config, create_tailwind_config,
    create_postcss_config, create_typescript_config, create_eslint_config,
    create_gitignore, create_readme, create_globals_css, create_layout_file,
    create_page_file in H. fold P name in H.
  guarded_write_step P H w6 Hr5 R6.
  guarded_write_step P H w7 R6 R7.
  guarded_write_step P H w8 R7 R8.
  guarded_write_step P H w9 R8 R9.
  guarded_write_step P H w10 R9 R10.
  guarded_write_step P H w11 R10 R11.
  guarded_write_step P H w12 R11 R12.
  guarded_write_step P H w13 R12 R13.
  apply bind_inv in H as ([] & w14 & Hl' & H).
  pose proof (reached_log _ _ _ _ _ _ _ R13 Hl') as R14.
  guarded_write_step P H w15 R14 R15.
  guarded_write_step P H w16 R15 R16.
  guarded_write_step P H w17 R16 R17.
  apply bind_inv in H as ([] & u1 & Hu1 & H). pose proof (reached_log _ _ _ _ _ _ _ R17 Hu1) as R1.
  apply bind_inv in H as ([] & u2 & Hu2 & H). pose proof (reached_log _ _ _ _ _ _ _ R1 Hu2) as R2.
  apply bind_inv in H as ([] & u3 & Hu3 & H). pose proof (reached_log _ _ _ _ _ _ _ R2 Hu3) as R3.
  apply bind_inv in H as ([] & u4 & Hu4 & H). pose proof (reached_log _ _ _ _ _ _ _ R3 Hu4) as R4.
  apply bind_inv in H as ([] & u5 & Hu5 & H). pose proof (reached_log _ _ _ _ _ _ _ R4 Hu5) as R5.
  apply bind_inv in H as ([] & u6 & Hu6 & H). pose proof (reached_log _ _ _ _ _ _ _ R5 Hu6) as Rz.
  injection H as <-.
  rewrite snoc_eleven, <-app_assoc in Rz.
  unfold project_tree. rewrite <-project_tree_built.
  exact Rz.
Qed.

Example project_tree_size name code : size (project_tree name code) = 16.
Proof.
  unfold project_tree. generalize (json_dump (package_json name)) (readme_content name).
  intros c1 c2. by vm_compute.
Qed.

(** ** The pipeline: generate_website *)

Lemma generate_website_total self text_input w :
  ∃ ok w', generate_website self text_input w = (Ok ok, w').
Proof. apply try_except_total. intros e w1. by do 2 eexists. Qed.

Lemma generate_website_code_fst self text_input w :
  (generate_website_code self text_input w).1
  = completion_outcome (client self (chat_request text_input)).
Proof.
  rewrite generate_website_code_run. cbv zeta.
  by destruct (completion_outcome _).
Qed.

Lemma pair_eta_fst {A B} (p : A * B) a : p.1 = a → p = (a, p.2).
Proof. destruct p. by intros <-. Qed.

(** C8, as the code has it: for a project path without [..] part, in a
    file system that is a tree. Such a path denotes the entry kept under
    its parts, and after a run that succeeds the directory it denotes holds
    the project tree and nothing else, whatever was there before: five
    directories and eleven files. When the target existed, its removal is
    the first file operation of the run, ahead of the five [mkdir] calls
    and the eleven writes. *)
Theorem stale_files_purged self text_input w w' :
  let P := project_path self in
  let name := project_name (config self) in
  plain_path P →
  fs_wf (fs w) →
  generate_website self text_input w = (Ok true, w') →
  ∃ code,
    (generate_website_code self text_input w).1 = Ok code
    ∧ denoted P = P
    ∧ (∀ rel, fs w' !! below (denoted P) rel = project_tree name code !! rel)
    ∧ file_events (events w')
      = file_events (events w)
        ++ project_events P name code (bool_decide (is_Some (fs w !! P))).
Proof.
  intros P name HP Hwf H. apply generate_website_true in H as (code & Hc & _ & Hw & Hv).
  exists code. split; [by rewrite generate_website_code_fst |].
  rewrite (denoted_plain P HP).
  split; [done |]. split; [by apply Hv | done].
Qed.

Lemma writes_of_project_events P name code existed :
  writes_of (project_events P name code existed)
  = (λ f, (below P f.1, f.2)) <$> project_writes name code.
Proof. by destruct existed. Qed.

(** C3, as the code has it: a run that succeeds writes eleven files, each
    once, in the order of the script. The generated text goes to
    src/app/page.tsx and nowhere else; eight files hold constant text;
    package.json and README.md are computed from the project name. *)
Theorem generated_text_in_one_file self text_input w w' :
  let P := project_path self in
  let name := project_name (config self) in
  generate_website self text_input w = (Ok true, w') →
  ∃ code,
    (generate_website_code self text_input w).1 = Ok code
    ∧ writes_of (events w')
      = writes_of (events w) ++ ((λ f, (below P f.1, f.2)) <$> project_writes name code)
    ∧ NoDup (project_writes name code).*1
    ∧ ∀ f, f ∈ project_writes name code →
           f = ([lit "src"; lit "app"; lit "page.tsx"], code)
           ∨ f = ([lit "package.json"], json_dump (package_json name))
           ∨ f = ([lit "README.md"], readme_content name)
           ∨ f ∈ static_files.
Proof.
  intros P name H. apply generate_website_true in H as (code & Hc & _ & Hw & _).
  exists code. split; [by rewrite generate_website_code_fst |]. split; [| split].
  - apply (f_equal writes_of) in Hw.
    by rewrite writes_of_app, !writes_of_file_events, writes_of_project_events in Hw.
  - apply (bool_decide_unpack _). by vm_compute.
  - intros f Hf. unfold project_writes in Hf. unfold static_files.
    repeat (apply elem_of_cons in Hf as [->|Hf]; [set_solver |]).
    by apply elem_of_nil in Hf.
Qed.

(** C6: when the generation call raises, generate_website answers [False]
    and the run has touched nothing: the file system is as before, no file
    operation was even attempted, and the history holds no file event. *)
Theorem generation_failure_before_any_file self text_input w e :
  (generate_website_code self text_input w).1 = Raise e →
  ∃ w' log,
    generate_website self text_input w = (Ok false, w')
    ∧ fs w' = fs w
    ∧ faults w' = faults w
    ∧ events w' = events w ++ log
    ∧ Forall (λ ev, fs_event ev = false) log.
Proof.
  rewrite generate_website_code_fst. intros Hc.
  unfold generate_website, try_except, bind, logger_info, logger_error, emit, ret.
  rewrite generate_website_code_run. cbv zeta. rewrite Hc. simpl.
  do 2 eexists. split; [reflexivity |]. simpl. split_and!; [done | done | |].
  - rewrite <-!app_assoc. reflexivity.
  - by repeat constructor.
Qed.

(** ** main *)

Lemma main_without_key unicode_lower OpenAI getenv args w :
  truthy (py_or (api_key_arg args) getenv) = false →
  main unicode_lower OpenAI getenv args w =
  (Ok tt, {| fs := fs w; faults := faults w;
             events := events w ++ [ELog ERROR key_required] |}).
Proof.
  unfold main. destruct (py_or (api_key_arg args) getenv) as [[|c k]|]; done.
Qed.

(** C4: with no credential (no flag and no environment variable, or empty
    ones), main logs the error and returns; the file system is untouched,
    no file operation and no network call is attempted. *)
Theorem missing_key_no_side_effect unicode_lower OpenAI getenv args w :
  truthy (api_key_arg args) = false →
  truthy getenv = false →
  ∃ w',
    main unicode_lower OpenAI getenv args w = (Ok tt, w')
    ∧ fs w' = fs w
    ∧ faults w' = faults w
    ∧ events w' = events w ++ [ELog ERROR key_required]
    ∧ side_effect (ELog ERROR key_required) = false.
Proof.
  intros Ha Hg. eexists. split.
  - apply main_without_key. unfold py_or. by rewrite Ha.
  - done.
Qed.

Lemma main_returns unicode_lower OpenAI getenv args w :
  truthy (py_or (api_key_arg args) getenv) = false
  ∨ (∃ text w1, read_input args w = (Ok text, w1)) →
  ∃ w', main unicode_lower OpenAI getenv args w = (Ok tt, w').
Proof.
  intros [Hk|(text & w1 & Hr)].
  - rewrite main_without_key by done. by eexists.
  - unfold main. destruct (py_or (api_key_arg args) getenv) as [[|c k]|];
      try (by eexists).
    unfold bind at 1. rewrite Hr. unfold bind at 1.
    match goal with
    | |- context [generate_website ?g ?t ?w0] =>
        destruct (generate_website_total g t w0) as ([] & w2 & ->)
    end; eexists; reflexivity.
Qed.

(** The handled outcomes end alike. Once the description is in hand (the
    credential is missing, so it is never read; or the argument is the
    description itself; or it names a file that is read), main returns and
    the exit status is 0, whether the website was generated or not (on a
    standard output that can encode the banners, see [print]). *)
Theorem main_exit_status unicode_lower OpenAI getenv args w :
  truthy (py_or (api_key_arg args) getenv) = false
  ∨ (∃ text w1, read_input args w = (Ok text, w1)) →
  ∃ w',
    main unicode_lower OpenAI getenv args w = (Ok tt, w')
    ∧ exit_status (main unicode_lower OpenAI getenv args w).1 = 0%N.
Proof.
  intros H. destruct (main_returns unicode_lower OpenAI getenv args w H) as [w' E].
  exists w'. by rewrite E.
Qed.

(** ** The theorems at work on sample runs *)

Lemma stale_files_purged_witness :
  let self := new_generator (answering sample_page) sample_config in
  let text_input := lit "a landing page for a coffee shop" in
  let w' := (generate_website self text_input stale_world).2 in
  ∃ code,
    (generate_website_code self text_input stale_world).1 = Ok code
    ∧ denoted (project_path self) = project_path self
    ∧ (∀ rel, fs w' !! below (denoted (project_path self)) rel
              = project_tree (project_name (config self)) code !! rel)
    ∧ file_events (events w')
      = file_events (events stale_world)
        ++ project_events (project_path self) (project_name (config self)) code
             (bool_decide (is_Some (fs stale_world !! project_path self))).
Proof.
  intros self text_input w'. subst w'.
  apply (stale_files_purged self text_input stale_world).
  - apply (bool_decide_unpack _). by vm_compute.
  - apply (bool_decide_unpack _). by vm_compute.
  - apply pair_eta_fst. by vm_compute.
Defined.

Example stale_file_gone :
  let self := new_generator (answering sample_page) sample_config in
  let w' := (generate_website self (lit "a landing page for a coffee shop") stale_world).2 in
  fs stale_world !! (false, [lit "out"; lit "coffee-site"; lit "old.txt"]) = Some (File (lit "stale"))
  ∧ fs w' !! (false, [lit "out"; lit "coffee-site"; lit "old.txt"]) = None
  ∧ fs w' !! (false, [lit "out"; lit "coffee-site"; lit "src"; lit "legacy.js"]) = None
  ∧ fs w' !! (false, [lit "out"; lit "other"; lit "keep.txt"]) = Some (File (lit "kept"))
  ∧ fs w' !! (false, [lit "out"; lit "coffee-site"; lit "src"; lit "app"; lit "page.tsx"])
    = Some (File sample_page).
Proof. repeat split; by vm_compute. Qed.

(** C8 fails as stated. The project name [..] passes the cleaning; the
    target [out/..] does not exist as long as [out] is missing, so nothing
    is removed; the run succeeds; and the directory that [out/..] denotes
    from then on, the current directory, still holds the file it held,
    which is no part of the project. *)
Lemma stale_file_survives :
  let name := clean_project_name ascii_table_only (lit "..") in
  let self := new_generator (answering sample_page)
                {| project_name := name; output_dir := lit "./out";
                   openai_api_key := lit "sk-test" |} in
  let run := generate_website self (lit "a landing page") home_world in
  project_path self = (false, [lit "out"; lit ".."])
  ∧ denoted (project_path self) = (false, [])
  ∧ fs home_world !! below (denoted (project_path self)) [lit "keep.txt"]
    = Some (File (lit "kept"))
  ∧ run.1 = Ok true
  ∧ forallb (λ e, match e with ERmtree _ => false | _ => true end) (events run.2) = true
  ∧ fs run.2 !! below (denoted (project_path self)) [lit "keep.txt"]
    = Some (File (lit "kept"))
  ∧ project_tree name (postprocess sample_page) !! [lit "keep.txt"] = None.
Proof. repeat split; by vm_compute. Qed.

Lemma generated_text_in_one_file_witness :
  let self := new_generator (answering sample_page) sample_config in
  let text_input := lit "a landing page for a coffee shop" in
  ∃ code,
    (generate_website_code self text_input empty_world).1 = Ok code
    ∧ writes_of (events (generate_website self text_input empty_world).2)
      = writes_of (events empty_world)
        ++ ((λ f, (below (project_path self) f.1, f.2))
              <$> project_writes (project_name (config self)) code)
    ∧ NoDup (project_writes (project_name (config self)) code).*1
    ∧ ∀ f, f ∈ project_writes (project_name (config self)) code →
           f = ([lit "src"; lit "app"; lit "page.tsx"], code)
           ∨ f = ([lit "package.json"], json_dump (package_json (project_name (config self))))
           ∨ f = ([lit "README.md"], readme_content (project_name (config self)))
           ∨ f ∈ static_files.
Proof.
  intros self text_input.
  apply (generated_text_in_one_file self text_input empty_world).
  apply pair_eta_fst. by vm_compute.
Defined.

(** C3 fails as stated: package.json and README.md are not independent of
    the user's input. Two runs that differ in --project-name only write
    different text to both. *)
Lemma manifest_depends_on_project_name :
  let args_a := {| input := lit "a landing page"; output_dir_arg := lit "./out";
                   project_name_arg := lit "alpha"; api_key_arg := Some (lit "sk-test") |} in
  let args_b := {| input := lit "a landing page"; output_dir_arg := lit "./out";
                   project_name_arg := lit "beta"; api_key_arg := Some (lit "sk-test") |} in
  let run args := main ascii_table_only (answering sample_page) None args empty_world in
  fs (run args_a).2 !! (false, [lit "out"; lit "alpha"; lit "package.json"])
    = Some (File (json_dump (package_json (lit "alpha"))))
  ∧ fs (run args_b).2 !! (false, [lit "out"; lit "beta"; lit "package.json"])
    = Some (File (json_dump (package_json (lit "beta"))))
  ∧ json_dump (package_json (lit "alpha")) ≠ json_dump (package_json (lit "beta"))
  ∧ fs (run args_a).2 !! (false, [lit "out"; lit "alpha"; lit "README.md"])
    = Some (File (readme_content (lit "alpha")))
  ∧ fs (run args_b).2 !! (false, [lit "out"; lit "beta"; lit "README.md"])
    = Some (File (readme_content (lit "beta")))
  ∧ readme_content (lit "alpha") ≠ readme_content (lit "beta").
Proof.
  repeat split; try (by vm_compute);
    apply (bool_decide_unpack _); by vm_compute.
Qed.

Lemma generation_failure_before_any_file_witness :
  let self := new_generator unreachable sample_config in
  ∃ w' log,
    generate_website self (lit "a landing page") stale_world = (Ok false, w')
    ∧ fs w' = fs stale_world
    ∧ faults w' = faults stale_world
    ∧ events w' = events stale_world ++ log
    ∧ Forall (λ ev, fs_event ev = false) log.
Proof.
  intros self.
  apply (generation_failure_before_any_file self (lit "a landing page") stale_world
           (APIConnectionError (lit "Connection error."))).
  reflexivity.
Defined.

Lemma missing_key_no_side_effect_witness :
  let args := {| input := lit "a landing page"; output_dir_arg := lit "./out";
                 project_name_arg := lit "site"; api_key_arg := None |} in
  ∃ w',
    main ascii_table_only (answering sample_page) None args stale_world = (Ok tt, w')
    ∧ fs w' = fs stale_world
    ∧ faults w' = faults stale_world
    ∧ events w' = events stale_world ++ [ELog ERROR key_required]
    ∧ side_effect (ELog ERROR key_required) = false.
Proof.
  intros args.
  apply (missing_key_no_side_effect ascii_table_only (answering sample_page) None args
           stale_world); reflexivity.
Defined.

(** A materialization failure: the run ends with the failure banner and
    exit status 0. *)
Lemma main_exit_status_witness :
  ∃ w',
    main ascii_table_only (answering sample_page) None sample_args blocked_world = (Ok tt, w')
    ∧ exit_status (main ascii_table_only (answering sample_page) None sample_args
                     blocked_world).1 = 0%N.
Proof.
  apply (main_exit_status ascii_table_only (answering sample_page) None sample_args
           blocked_world).
  right. exists (input sample_args), blocked_world. reflexivity.
Defined.

Example failure_banner_and_status :
  let failed w := last (events w)
                  = Some (EPrint ([nl; 10060%N] ++ lit " Website generation failed. Check logs for details.")) in
  let run_blocked := main ascii_table_only (answering sample_page) None sample_args blocked_world in
  let run_offline := main ascii_table_only unreachable None sample_args empty_world in
  exit_status run_blocked.1 = 0%N ∧ failed run_blocked.2
  ∧ exit_status run_offline.1 = 0%N ∧ failed run_offline.2
  ∧ fs run_offline.2 = ∅.
Proof. repeat split; by vm_compute. Qed.

(** C10 at an input file that cannot be decoded: the read in main stands
    outside every try block, the exception escapes main, and the exit
    status is 1, not 0. Every other operation of the script is guarded. *)
Lemma unreadable_input_escapes :
  let args := {| input := lit "brief.bin"; output_dir_arg := lit "./out";
                 project_name_arg := lit "site"; api_key_arg := Some (lit "sk-test") |} in
  (main ascii_table_only (answering sample_page) None args blob_world).1
    = Raise UnicodeDecodeError
  ∧ exit_status (main ascii_table_only (answering sample_page) None args blob_world).1 = 1%N.
Proof. split; by vm_compute. Qed.

(** * Further properties *)

(** ** Post-processing *)

Lemma lstrip_spaces ws : forallb isspace ws = true → lstrip ws = [].
Proof.
  induction ws as [|c ws IH]; [done |]. simpl.
  intros H. apply andb_true_iff in H as [-> H]. by apply IH.
Qed.

Lemma rstrip_spaces ws : forallb isspace ws = true → rstrip ws = [].
Proof.
  induction ws as [|c ws IH]; [done |]. simpl.
  intros H. apply andb_true_iff in H as [-> H]. by rewrite IH.
Qed.

Lemma rstrip_app_spaces s ws : forallb isspace ws = true → rstrip (s ++ ws) = rstrip s.
Proof.
  intros H. induction s as [|c s IH]; simpl.
  - by apply rstrip_spaces.
  - by rewrite IH.
Qed.

Lemma strip_app_spaces s ws : forallb isspace ws = true → strip (s ++ ws) = strip s.
Proof.
  intros H. unfold strip. induction s as [|c s IH]; simpl.
  - by rewrite lstrip_spaces.
  - destruct (isspace c); [done |].
    by rewrite app_comm_cons, rstrip_app_spaces.
Qed.

Lemma strip_spaces_app ws s : forallb isspace ws = true → strip (ws ++ s) = strip s.
Proof.
  intros H. unfold strip. f_equal.
  induction ws as [|c ws IH]; [done |]. simpl in *.
  apply andb_true_iff in H as [-> H]. by apply IH.
Qed.

(** X1: White space around the model's answer plays no part: the text is
    trimmed before anything else, so a fence or a directive that comes
    after blank lines is seen as if it came first. *)
Theorem postprocess_ignores_outer_space before raw after :
  forallb isspace before = true →
  forallb isspace after = true →
  postprocess (before ++ raw ++ after) = postprocess raw.
Proof.
  intros Hb Ha. unfold postprocess.
  by rewrite strip_spaces_app, strip_app_spaces.
Qed.

Lemma postprocess_ignores_outer_space_witness :
  postprocess ([nl; nl; 32%N] ++ (lit "```tsx" ++ [nl] ++ lit "code" ++ [nl] ++ lit "```")
               ++ [32%N; nl])
  = postprocess (lit "```tsx" ++ [nl] ++ lit "code" ++ [nl] ++ lit "```").
Proof.
  apply (postprocess_ignores_outer_space [nl; nl; 32%N] _ [32%N; nl]); reflexivity.
Defined.

(** X2: A fenced answer is unwrapped to exactly its body: the opening fence
    line goes with its language tag, the closing fence line goes with
    whatever follows the fence on that line, and the body, which may hold
    anything (fences too), is returned as it is. *)
Theorem strip_fences_unwraps tag body tail :
  nl ∉ tag → nl ∉ tail →
  strip_fences (fence ++ tag ++ nl :: body ++ nl :: fence ++ tail) = body.
Proof.
  intros Htag Htail. unfold strip_fences.
  rewrite startswith_app.
  replace (fence ++ tag ++ nl :: body ++ nl :: fence ++ tail)
    with ((fence ++ tag) ++ nl :: body ++ nl :: (fence ++ tail))
    by by rewrite <-app_assoc.
  rewrite !split_app.
  rewrite (split_no_sep nl (fence ++ tag)), (split_no_sep nl (fence ++ tail)).
  - cbn [app]. rewrite startswith_app.
    rewrite last_snoc, startswith_app, removelast_last.
    apply join_split.
  - intros H. apply elem_of_app in H as [H|H]; [by apply fence_no_newline in H | done].
  - intros H. apply elem_of_app in H as [H|H]; [by apply fence_no_newline in H | done].
Qed.

Lemma strip_fences_unwraps_witness :
  strip_fences (fence ++ lit "tsx" ++ nl :: (lit "a" ++ [nl] ++ lit "```" ++ [nl] ++ lit "b")
                ++ nl :: fence ++ lit "  ")
  = lit "a" ++ [nl] ++ lit "```" ++ [nl] ++ lit "b".
Proof.
  apply (strip_fences_unwraps (lit "tsx") (lit "a" ++ [nl] ++ lit "```" ++ [nl] ++ lit "b")
           (lit "  "));
    apply (bool_decide_unpack _); by vm_compute.
Defined.

(** X3: After the directive step a text with an interactivity marker starts
    with ['use client'], and the step applied a second time changes
    nothing: the directive is never doubled by the step itself. *)
Theorem add_directive_settles code :
  add_directive (add_directive code) = add_directive code
  ∧ (has_client_feature code = true → startswith (add_directive code) use_client = true).
Proof.
  unfold add_directive.
  destruct (has_client_feature code) eqn:Hf; simpl.
  - destruct (startswith code use_client) eqn:Hs; simpl.
    + by rewrite Hf, Hs.
    + change (startswith (use_client_line ++ code) use_client) with true.
      by rewrite andb_false_r.
  - by rewrite Hf.
Qed.

Lemma add_directive_settles_witness :
  startswith (add_directive (lit "<button onClick={go}>")) use_client = true.
Proof. apply (add_directive_settles (lit "<button onClick={go}>")). reflexivity. Defined.

(** ** Runs, whatever their outcome *)

Lemma effects_of_snoc l e :
  effects_of (l ++ [e]) = effects_of l ++ (if side_effect e then [e] else []).
Proof.
  unfold effects_of. rewrite filter_app. f_equal.
  destruct (side_effect e) eqn:E.
  - by rewrite filter_cons_True.
  - rewrite filter_cons_False; [done | by rewrite E].
Qed.

Lemma next_fault_any w r w' :
  next_fault w = (r, w') → fs w' = fs w ∧ events w' = events w.
Proof.
  unfold next_fault. destruct (faults w) as [|[msg|] fl]; by intros [= <- <-].
Qed.

Lemma write_text_any p text w r w' :
  write_text p text w = (r, w') →
  (r = Ok tt
   ∧ fs w' = <[p := File text]> (fs w)
   ∧ events w' = events w ++ [EWrite p text]
   ∧ p.2 ≠ [] ∧ fs w !! p ≠ Some Dir ∧ parent_is_dir (fs w) p)
  ∨ (∃ e, r = Raise e ∧ fs w' = fs w ∧ events w' = events w).
Proof.
  unfold write_text, bind. destruct (next_fault w) as [[[]|e] w1] eqn:E;
    apply next_fault_any in E as [<- <-].
  - unfold parent_is_dir, raise, bind, set_fs, emit.
    destruct p as [a [|x ps]]; [intros [= <- <-]; right; by eexists |].
    cbn [snd fst].
    destruct (fs w1 !! (a, x :: ps)) as [[| |]|] eqn:Hp;
      try (intros [= <- <-]; right; by eexists).
    all: case_bool_decide as Hpar;
      [ intros [= <- <-]; left; split_and!; try done; by left
      | destruct (fs w1 !! parent (a, x :: ps)) as [[| |]|] eqn:Hq;
        intros [= <- <-];
        [ left; split_and!; try done; by right
        | right; by eexists .. ] ].
  - intros [= <- <-]. right. by eexists.
Qed.

Lemma mkdir_any p w r w' :
  mkdir p w = (r, w') →
  (r = Ok tt ∧ mkdir_from p.1 [] p.2 (fs w) = Ok (fs w')
   ∧ events w' = events w ++ [EMkdir p])
  ∨ (∃ e, r = Raise e ∧ fs w' = fs w ∧ events w' = events w).
Proof.
  unfold mkdir, bind. destruct (next_fault w) as [[[]|e] w1] eqn:E;
    apply next_fault_any in E as [<- <-].
  - unfold raise, bind, set_fs, emit.
    destruct (mkdir_from p.1 [] p.2 (fs w1)) as [f|e];
      intros [= <- <-]; [by left | right; by eexists].
  - intros [= <- <-]. right. by eexists.
Qed.

Lemma rmtree_any p w r w' :
  rmtree p w = (r, w') →
  (r = Ok tt ∧ p.2 ≠ [] ∧ fs w !! p = Some Dir
   ∧ fs w' = filter (λ kv, ¬ under p kv.1) (fs w)
   ∧ events w' = events w ++ [ERmtree p])
  ∨ (∃ e, r = Raise e ∧ fs w' = fs w ∧ events w' = events w).
Proof.
  unfold rmtree, bind. destruct (next_fault w) as [[[]|e] w1] eqn:E;
    apply next_fault_any in E as [<- <-].
  - unfold raise, bind, set_fs, emit.
    destruct p as [a [|x ps]]; [intros [= <- <-]; right; by eexists |].
    cbn [snd fst].
    destruct (fs w1 !! (a, x :: ps)) as [[| |]|] eqn:Hp;
      intros [= <- <-]; [by left | right; by eexists ..].
  - intros [= <- <-]. right. by eexists.
Qed.

Lemma log_step_ok P msg : step_ok P (log_step msg) SLog.
Proof.
  intros w r w' [= <- <-]. split_and!; [done | done |].
  simpl. by rewrite effects_of_snoc, app_nil_r.
Qed.

(** A guarded write is a write step. *)
Lemma guarded_write_ok P p rel text (k : M bool) h :
  reports_false h →
  p = below P rel →
  (k = ret true ∨ ∃ msg, k = (logger_info msg ;; ret true)) →
  step_ok P (try_except (write_text p text ;; k) h) (SWrite rel text).
Proof.
  intros Hh -> Hk w r w'. unfold try_except, bind.
  destruct (write_text (below P rel) text w) as [r1 w1] eqn:E.
  apply write_text_any in E as [(-> & Hfs & Hev & _)|(e & -> & Hfs & Hev)].
  - destruct Hk as [->|[msg ->]]; intros [= <- <-]; left; simpl.
    + split_and!; [done | done |]. by rewrite Hev, effects_of_snoc.
    + split_and!; [done | done |].
      by rewrite effects_of_snoc, Hev, effects_of_snoc, app_nil_r.
  - destruct (Hh e w1) as [msg ->]. intros [= <- <-]. right. simpl.
    split_and!; [done | done |]. by rewrite effects_of_snoc, Hev, app_nil_r.
Qed.

Ltac create_step_ok :=
  apply guarded_write_ok;
  [ apply handler_reports_false
  | first [ apply path_join_1; reflexivity | apply path_join_3; reflexivity ]
  | first [ by left | right; by eexists ] ].

Lemma materializer_steps_ok self code :
  Forall2 (step_ok (project_path self))
    (materializer_steps self code)
    (materializer_kinds (project_name (config self)) code).
Proof.
  unfold materializer_steps, materializer_kinds, project_writes.
  cbn [fmap list_fmap take drop app replicate uncurry].
  repeat (constructor; [first [apply log_step_ok | create_step_ok] |]).
  constructor.
Qed.

(** A chain of steps runs its steps in order up to the first write that
    fails, or to the end. *)
Lemma run_steps_spec P steps ks w r w' :
  Forall2 (step_ok P) steps ks →
  run_steps steps w = (r, w') →
  ∃ n,
    effects_of (events w')
    = effects_of (events w)
      ++ ((λ f, EWrite (below P f.1) f.2) <$> writes_of_kinds (take n ks))
    ∧ fs w' = write_all P (writes_of_kinds (take n ks)) (fs w)
    ∧ ((r = Ok true ∧ n = length ks)
       ∨ (r = Ok false ∧ ∃ rel text, ks !! n = Some (SWrite rel text))).
Proof.
  intros Hok. revert w. induction Hok as [|s k steps ks Hs _ IH]; intros w H.
  - injection H as <- <-. exists 0. simpl. rewrite app_nil_r. split_and!; [done | done |].
    by left.
  - simpl in H. unfold or_return_false, bind in H.
    destruct (s w) as [r1 w1] eqn:E. specialize (Hs _ _ _ E).
    destruct k as [|rel text].
    + destruct Hs as (-> & Hfs & Hev). destruct (IH _ H) as (n & Hev' & Hfs' & Hr).
      exists (S n). cbn [take writes_of_kinds omap]. fold (writes_of_kinds (take n ks)).
      rewrite Hev', Hfs', Hev, Hfs. split_and!; [done | done |].
      destruct Hr as [[-> ->]|[-> Hn]]; [by left | by right].
    + destruct Hs as [(-> & Hfs & Hev)|(-> & Hfs & Hev)].
      * destruct (IH _ H) as (n & Hev' & Hfs' & Hr).
        exists (S n). cbn [take writes_of_kinds omap]. fold (writes_of_kinds (take n ks)).
        rewrite Hev', Hfs', Hev, Hfs. split_and!.
        -- by rewrite <-app_assoc.
        -- done.
        -- destruct Hr as [[-> ->]|[-> Hn]]; [by left | by right].
      * injection H as <- <-. exists 0. simpl. rewrite app_nil_r.
        split_and!; [done | done |]. right. by eauto.
Qed.

Lemma for_each_mkdir_any ps w r w' :
  for_each ps mkdir w = (r, w') →
  ∃ n,
    effects_of (events w') = effects_of (events w) ++ (EMkdir <$> take n ps)
    ∧ ((r = Ok tt ∧ n = length ps) ∨ (∃ e, r = Raise e ∧ n < length ps)).
Proof.
  revert w. induction ps as [|p ps IH]; intros w H.
  - injection H as <- <-. exists 0. simpl. rewrite app_nil_r. split; [done | by left].
  - simpl in H. unfold bind in H. destruct (mkdir p w) as [r1 w1] eqn:E.
    apply mkdir_any in E as [(-> & _ & Hev)|(e & -> & _ & Hev)].
    + destruct (IH _ H) as (n & Hev' & Hr). exists (S n). split.
      * rewrite Hev', Hev, effects_of_snoc. simpl. by rewrite <-app_assoc.
      * destruct Hr as [[-> ->]|(e & -> & Hn)]; [by left | right].
        exists e. split; [done | simpl; lia].
    + injection H as <- <-. exists 0. rewrite Hev. simpl. rewrite app_nil_r.
      split; [done | right]. exists e. split; [done | simpl; lia].
Qed.

Lemma bind_any {A B} (m : M A) (k : A → M B) w r w' :
  bind m k w = (r, w') →
  (∃ a w1, m w = (Ok a, w1) ∧ k a w1 = (r, w'))
  ∨ (∃ e, m w = (Raise e, w') ∧ r = Raise e).
Proof.
  unfold bind. destruct (m w) as [[a|e] w1]; [by eauto |].
  intros [= <- <-]. by eauto.
Qed.

Lemma try_except_any {A} (m : M A) h w r w' :
  try_except m h w = (r, w') →
  (∃ a, m w = (Ok a, w') ∧ r = Ok a)
  ∨ (∃ e w1, m w = (Raise e, w1) ∧ h e w1 = (r, w')).
Proof.
  unfold try_except. destruct (m w) as [[a|e] w1]; [| by eauto].
  intros [= <- <-]. by eauto.
Qed.

Lemma logger_any lvl msg w r w' :
  emit (ELog lvl msg) w = (r, w') →
  r = Ok tt ∧ fs w' = fs w ∧ effects_of (events w') = effects_of (events w).
Proof.
  intros [= <- <-]. split_and!; [done | done |].
  simpl. by rewrite effects_of_snoc, app_nil_r.
Qed.

Lemma handler_any prefix e w r w' :
  (logger_error (prefix ++ exn_str e);; ret false) w = (r, w') →
  r = Ok false ∧ fs w' = fs w ∧ effects_of (events w') = effects_of (events w).
Proof.
  intros [= <- <-]. split_and!; [done | done |].
  simpl. by rewrite effects_of_snoc, app_nil_r.
Qed.

Lemma structure_events_split P (existed : bool) E0 n :
  E0 = (if existed then [ERmtree P] else []) →
  n < 5 →
  ∃ x R,
    (E0 ++ (EMkdir <$> take n [P; below P [lit "src"]; below P [lit "src"; lit "app"];
                               below P [lit "src"; lit "components"];
                               below P [lit "public"]]))
    ++ x :: R = structure_events P existed.
Proof.
  intros -> Hn. unfold structure_events.
  set (dirs := [P; below P [lit "src"]; below P [lit "src"; lit "app"];
                below P [lit "src"; lit "components"]; below P [lit "public"]]).
  destruct (lookup_lt_is_Some_2 (EMkdir <$> dirs) n) as [x Hx]; [done |].
  exists x, (drop (S n) (EMkdir <$> dirs)).
  rewrite <-app_assoc, fmap_take. f_equal. exact (take_drop_middle (EMkdir <$> dirs) n x Hx).
Qed.

(** The body of create_project_structure, inside its [try]. *)
Lemma create_project_structure_body P (body : M bool) w r w' :
  body = (logger_info (lit "Creating project structure...");;
          let* there := path_exists P in
          (if there then rmtree P else ret tt);;
          for_each [P; below P [lit "src"]; below P [lit "src"; lit "app"];
                    below P [lit "src"; lit "components"]; below P [lit "public"]] mkdir;;
          logger_info (lit "Project structure created successfully");;
          ret true) →
  body w = (r, w') →
  let L := structure_events P (bool_decide (is_Some (fs w !! P))) in
  (r = Ok true ∧ effects_of (events w') = effects_of (events w) ++ L)
  ∨ (∃ e E x R, r = Raise e ∧ effects_of (events w') = effects_of (events w) ++ E
                ∧ E ++ x :: R = L).
Proof.
  intros -> H L.
  apply bind_any in H as [([] & w1 & Hl & H)|(e & Hl & _)];
    [| by apply logger_any in Hl as [? _]].
  apply logger_any in Hl as (_ & Hf1 & He1).
  apply bind_any in H as [(there & w2 & Hex & H)|(e & Hex & _)]; [| done].
  injection Hex as <- <-.
  apply bind_any in H as [([] & w3 & Hrm & H)|(e & Hrm & ->)].
  - assert (effects_of (events w3)
            = effects_of (events w)
              ++ (if bool_decide (is_Some (fs w !! P)) then [ERmtree P] else [])) as He3.
    { destruct (bool_decide (P.2 = []) || bool_decide (is_Some (fs w1 !! P))) eqn:Ht.
      - apply rmtree_any in Hrm as [(_ & _ & Hd & _ & Hev)|(e & ? & _)]; [| done].
        rewrite Hf1 in Hd. rewrite bool_decide_eq_true_2 by by rewrite Hd.
        by rewrite Hev, effects_of_snoc, He1.
      - injection Hrm as <-. apply orb_false_iff in Ht as [_ Ht].
        rewrite Hf1 in Ht. by rewrite Ht, app_nil_r. }
    apply bind_any in H as [([] & w4 & Hfor & H)|(e & Hfor & ->)].
    + apply for_each_mkdir_any in Hfor as (n & Hev & [[_ ->]|(e & ? & _)]); [| done].
      apply bind_any in H as [([] & w5 & Hl & H)|(e & Hl & _)];
        [| by apply logger_any in Hl as [? _]].
      apply logger_any in Hl as (_ & _ & He5). injection H as <- <-.
      left. split; [done |]. rewrite He5, Hev, He3. unfold L, structure_events.
      by rewrite <-app_assoc.
    + apply for_each_mkdir_any in Hfor as (n & Hev & [[? _]|(e' & _ & Hn)]); [done |].
      right. destruct (structure_events_split P (bool_decide (is_Some (fs w !! P))) _ n
                         eq_refl Hn) as (x & R & HxR).
      eexists e, _, x, R. split; [done |]. split; [| exact HxR].
      by rewrite Hev, He3, <-app_assoc.
  - destruct (bool_decide (P.2 = []) || bool_decide (is_Some (fs w1 !! P))); [| done].
    apply rmtree_any in Hrm as [(? & _)|(e' & _ & _ & Hev)]; [done |].
    right. exists e, []. unfold L, structure_events.
    destruct (bool_decide (is_Some (fs w !! P))); eexists _, _;
      (split; [done |]); (split; [| reflexivity]);
      by rewrite Hev, He1, app_nil_r.
Qed.

(** create_project_structure, whatever its outcome: it answers a boolean,
    and its file operations are the removal of the old tree (if there is
    one) and the five [mkdir] calls, in this order, up to the first that
    fails. *)
Lemma create_project_structure_any self w r w' :
  let P := project_path self in
  create_project_structure self w = (r, w') →
  ∃ E,
    effects_of (events w') = effects_of (events w) ++ E
    ∧ ((r = Ok true ∧ E = structure_events P (bool_decide (is_Some (fs w !! P))))
       ∨ (r = Ok false
          ∧ ∃ x R, E ++ x :: R = structure_events P (bool_decide (is_Some (fs w !! P))))).
Proof.
  intros P H. unfold create_project_structure in H. fold P in H.
  rewrite (path_join_2 P (lit "src") (lit "app")),
    (path_join_2 P (lit "src") (lit "components")),
    (path_join_1 P (lit "src")), (path_join_1 P (lit "public")) in H by reflexivity.
  apply try_except_any in H as [(ok & Hb & ->)|(e & w1 & Hb & Hh)].
  - eapply create_project_structure_body in Hb as [[[= ->] Hev]|(e & ? & ? & ? & ? & _)];
      [| done | done].
    eexists. split; [exact Hev | by left].
  - eapply create_project_structure_body in Hb as [[? _]|(e' & E & x & R & _ & Hev & HxR)];
      [done | | done].
    apply handler_any in Hh as (-> & _ & Hev').
    exists E. split; [by rewrite Hev' |]. right. by eauto.
Qed.

Lemma writes_of_kinds_split ks n rel text :
  ks !! n = Some (SWrite rel text) →
  writes_of_kinds ks
  = writes_of_kinds (take n ks) ++ (rel, text) :: writes_of_kinds (drop (S n) ks).
Proof.
  intros H. rewrite <-(take_drop_middle ks n _ H) at 1.
  unfold writes_of_kinds. by rewrite omap_app.
Qed.

(** generate_website, whatever its outcome. Three ways to end: the
    generation fails; create_project_structure fails; or the chain of
    writes runs up to its first failure, or to its end. *)
Lemma generate_website_any self text_input w r w' :
  let P := project_path self in
  let ks := materializer_kinds (project_name (config self)) in
  let request := ENetCall (chat_request text_input) in
  generate_website self text_input w = (r, w') →
  match completion_outcome (client self (chat_request text_input)) with
  | Raise _ =>
      r = Ok false ∧ fs w' = fs w
      ∧ effects_of (events w') = effects_of (events w) ++ [request]
  | Ok code =>
      let S := structure_events P (bool_decide (is_Some (fs w !! P))) in
      (r = Ok false
       ∧ ∃ E x R, effects_of (events w') = effects_of (events w) ++ request :: E
                  ∧ E ++ x :: R = S)
      ∨ (∃ n f,
           effects_of (events w')
           = effects_of (events w) ++ request :: S
             ++ ((λ wr, EWrite (below P wr.1) wr.2) <$> writes_of_kinds (take n (ks code)))
           ∧ fs w' = write_all P (writes_of_kinds (take n (ks code))) f
           ∧ ((r = Ok true ∧ n = length (ks code))
              ∨ (r = Ok false ∧ ∃ rel text, ks code !! n = Some (SWrite rel text))))
  end.
Proof.
  intros P ks request H.
  change (generate_website self text_input w) with
    (try_except
       (logger_info (lit "Starting direct website generation...");;
        logger_info (lit "Generating code with GPT-4...");;
        let* generated_code := generate_website_code self text_input in
        or_return_false (create_project_structure self)
          (run_steps (materializer_steps self generated_code)))
       (λ e, logger_error (lit "Error in website generation: " ++ exn_str e);; ret false)
       w) in H.
  assert (∀ w0 rb wb,
    (logger_info (lit "Starting direct website generation...");;
     logger_info (lit "Generating code with GPT-4...");;
     generate_website_code self text_input) w0 = (rb, wb) →
    fs wb = fs w0 ∧ rb = completion_outcome (client self (chat_request text_input))
    ∧ effects_of (events wb) = effects_of (events w0) ++ [request]) as Hgen.
  { intros w0 rb wb Hb.
    apply bind_any in Hb as [([] & w1 & Hl1 & Hb)|(e & Hl & _)];
      [| by apply logger_any in Hl as [? _]].
    apply logger_any in Hl1 as (_ & Hf1 & He1).
    apply bind_any in Hb as [([] & w2 & Hl2 & Hb)|(e & Hl & _)];
      [| by apply logger_any in Hl as [? _]].
    apply logger_any in Hl2 as (_ & Hf2 & He2).
    rewrite generate_website_code_run in Hb. cbv zeta in Hb.
    destruct (completion_outcome (client self (chat_request text_input)));
      injection Hb as <- <-; simpl;
      rewrite ?effects_of_snoc; simpl; rewrite ?app_nil_r, He2, He1; by rewrite Hf2, Hf1. }
  apply try_except_any in H as [(ok & Hb & ->)|(e & w1 & Hb & Hh)].
  - apply bind_any in Hb as [([] & w1 & Hl1 & Hb)|(e & ? & ?)]; [| done].
    apply bind_any in Hb as [([] & w2 & Hl2 & Hb)|(e & ? & ?)]; [| done].
    apply bind_any in Hb as [(code & w3 & Hc & Hb)|(e & ? & ?)]; [| done].
    destruct (Hgen w (Ok code) w3) as (Hf3 & Hco & He3).
    { unfold bind at 1. rewrite Hl1. unfold bind at 1. by rewrite Hl2. }
    rewrite <-Hco. cbv zeta.
    apply bind_any in Hb as [(b & w4 & Hs & Hb)|(e & ? & ?)]; [| done].
    apply create_project_structure_any in Hs as (E & He4 & HE). fold P in HE.
    rewrite Hf3 in HE. destruct HE as [[[= ->] ->]|[[= ->] (x & R & HxR)]].
    + right.
      destruct (run_steps_spec P _ _ _ _ _ (materializer_steps_ok self code) Hb)
        as (n & Hev & Hfs & Hr).
      exists n, (fs w4). split_and!; [| done | done].
      rewrite Hev, He4, He3. by rewrite <-!app_assoc.
    + injection Hb as <- <-. left. split; [done |].
      exists E, x, R. split; [| done]. rewrite He4, He3. by rewrite <-app_assoc.
  - apply handler_any in Hh as (-> & Hfh & Heh).
    apply bind_any in Hb as [([] & v1 & Hl1 & Hb)|(e' & Hl & _)];
      [| by apply logger_any in Hl as [? _]].
    apply bind_any in Hb as [([] & v2 & Hl2 & Hb)|(e' & Hl & _)];
      [| by apply logger_any in Hl as [? _]].
    apply bind_any in Hb as [(code & v3 & Hc & Hb)|(e' & Hc & [= <-])].
    + apply bind_any in Hb as [(b & v4 & Hs & Hb)|(e' & Hs & _)].
      * destruct b; [| done].
        destruct (run_steps_spec P _ _ _ _ _ (materializer_steps_ok self code) Hb)
          as (n & _ & _ & [[? _]|[? _]]); done.
      * apply create_project_structure_any in Hs as (? & _ & [[? _]|[? _]]); done.
    + destruct (Hgen w (Raise e) w1) as (Hf & Hco & He).
      { unfold bind at 1. rewrite Hl1. unfold bind at 1. by rewrite Hl2. }
      rewrite <-Hco. split_and!; [done | congruence | congruence].
Qed.

Lemma structure_events_no_write P existed p text :
  EWrite p text ∉ structure_events P existed.
Proof.
  unfold structure_events. intros H.
  apply elem_of_app in H as [H|H].
  - destruct existed; [| by apply elem_of_nil in H].
    by apply list_elem_of_singleton in H.
  - repeat (apply elem_of_cons in H as [H|H]; [done |]). by apply elem_of_nil in H.
Qed.

Lemma structure_events_file P existed : Forall (λ e, fs_event e = true) (structure_events P existed).
Proof. unfold structure_events. destruct existed; by repeat constructor. Qed.

Lemma project_events_structure P name code existed :
  project_events P name code existed
  = structure_events P existed
    ++ ((λ wr, EWrite (below P wr.1) wr.2) <$> project_writes name code).
Proof. unfold project_events, structure_events. by rewrite <-app_assoc. Qed.

(** X4: Every run of generate_website answers a boolean and has these side
    effects, in this order: one request to the service, then the file
    operations of the script up to the first that fails. The answer is
    [True] exactly when all of them were done. *)
Theorem generate_website_effects self text_input w :
  let P := project_path self in
  let name := project_name (config self) in
  let run := generate_website self text_input w in
  ∃ ok E,
    run.1 = Ok ok
    ∧ effects_of (events run.2)
      = effects_of (events w) ++ ENetCall (chat_request text_input) :: E
    ∧ match completion_outcome (client self (chat_request text_input)) with
      | Raise _ => ok = false ∧ E = []
      | Ok code =>
          let L := project_events P name code (bool_decide (is_Some (fs w !! P))) in
          (ok = true ∧ E = L) ∨ (ok = false ∧ ∃ x R, E ++ x :: R = L)
      end.
Proof.
  intros P name run. unfold run.
  destruct (generate_website self text_input w) as [r w'] eqn:H.
  apply generate_website_any in H. fold P name in H. cbv zeta in H.
  destruct (completion_outcome (client self (chat_request text_input))) as [code|e].
  - cbv zeta. rewrite project_events_structure.
    destruct H as [(-> & E & x & R & Hev & HxR)|(n & f & Hev & _ & Hr)].
    + exists false, E. split_and!; [done | done |]. right. split; [done |].
      eexists x, _. by rewrite <-HxR, <-app_assoc.
    + destruct Hr as [[-> ->]|(-> & rel & text & Hn)].
      * exists true. eexists. split_and!; [done | exact Hev |]. left. split; [done |].
        by rewrite firstn_all.
      * exists false. eexists. split_and!; [done | exact Hev |]. right. split; [done |].
        exists (EWrite (below P rel) text). eexists.
        change (project_writes name code)
          with (writes_of_kinds (materializer_kinds name code)).
        rewrite (writes_of_kinds_split _ _ _ _ Hn), fmap_app, <-app_assoc. done.
  - destruct H as (-> & _ & Hev). by exists false, [].
Qed.

Lemma write_all_snoc P ws wr f :
  write_all P (ws ++ [wr]) f = <[below P wr.1 := File wr.2]> (write_all P ws f).
Proof. unfold write_all. by rewrite foldl_app. Qed.

(** Files written one after the other to different paths are all there. *)
Lemma write_all_lookup P ws f rel text :
  NoDup ws.*1 → (rel, text) ∈ ws →
  write_all P ws f !! below P rel = Some (File text).
Proof.
  induction ws as [|[rel' text'] ws IH] using rev_ind; intros Hnd Hin.
  - by apply elem_of_nil in Hin.
  - rewrite write_all_snoc. simpl.
    rewrite fmap_app in Hnd. apply NoDup_app in Hnd as (Hnd & Hdis & _).
    apply elem_of_app in Hin as [Hin|Hin].
    + rewrite lookup_insert_ne; [by apply IH |].
      intros Heq. apply below_inj in Heq as ->.
      apply (Hdis rel); [| set_solver].
      apply list_elem_of_fmap. by exists (rel, text).
    + apply list_elem_of_singleton in Hin as [= -> ->]. by apply lookup_insert_eq.
Qed.

Lemma project_writes_nodup name code : NoDup (project_writes name code).*1.
Proof. apply (bool_decide_unpack _). by vm_compute. Qed.

Lemma writes_of_kinds_take_nodup name code n :
  NoDup (writes_of_kinds (take n (materializer_kinds name code))).*1.
Proof.
  pose proof (project_writes_nodup name code) as H.
  change (project_writes name code) with (writes_of_kinds (materializer_kinds name code)) in H.
  rewrite <-(take_drop n (materializer_kinds name code)) in H.
  unfold writes_of_kinds in H. rewrite omap_app, fmap_app in H.
  by apply NoDup_app in H as [H _].
Qed.

(** X5: No rollback, and no loss: whatever a run of generate_website wrote is
    in the file system when the run ends, with the text it wrote, also
    when the run fails later on. *)
Theorem written_files_stay self text_input w new p text :
  let run := generate_website self text_input w in
  effects_of (events run.2) = effects_of (events w) ++ new →
  EWrite p text ∈ new →
  fs run.2 !! p = Some (File text).
Proof.
  intros run. unfold run.
  destruct (generate_website self text_input w) as [r w'] eqn:H.
  apply generate_website_any in H. cbv zeta in H. simpl. intros Hnew Hin.
  destruct (completion_outcome (client self (chat_request text_input))) as [code|e].
  - destruct H as [(_ & E & x & R & Hev & HxR)|(n & f & Hev & Hfs & _)].
    + rewrite Hev in Hnew. apply app_inv_head in Hnew as <-.
      apply elem_of_cons in Hin as [Hin|Hin]; [done |].
      exfalso. eapply structure_events_no_write. rewrite <-HxR.
      apply elem_of_app. left. exact Hin.
    + rewrite Hev in Hnew. apply app_inv_head in Hnew as <-.
      apply elem_of_cons in Hin as [Hin|Hin]; [done |].
      apply elem_of_app in Hin as [Hin|Hin];
        [exfalso; by eapply structure_events_no_write |].
      apply list_elem_of_fmap in Hin as ([rel t] & [= -> ->] & Hin).
      rewrite Hfs. apply write_all_lookup; [apply writes_of_kinds_take_nodup | done].
  - destruct H as (_ & _ & Hev). rewrite Hev in Hnew. apply app_inv_head in Hnew as <-.
    by apply list_elem_of_singleton in Hin.
Qed.

(** ** Properties of the file system that every run keeps *)

Lemma fs_preserves_ret {A} J (a : A) : fs_preserves J (ret a).
Proof. by intros w r w' HJ [= <- <-]. Qed.

Lemma fs_preserves_raise {A} J e : fs_preserves J (raise (A := A) e).
Proof. by intros w r w' HJ [= <- <-]. Qed.

Lemma fs_preserves_bind {A B} J (m : M A) (k : A → M B) :
  fs_preserves J m → (∀ a, fs_preserves J (k a)) → fs_preserves J (bind m k).
Proof.
  intros Hm Hk w r w' HJ H.
  apply bind_any in H as [(a & w1 & H1 & H2)|(e & H1 & _)].
  - eapply Hk; [| exact H2]. by eapply Hm.
  - by eapply Hm.
Qed.

Lemma fs_preserves_try_except {A} J (m : M A) h :
  fs_preserves J m → (∀ e, fs_preserves J (h e)) → fs_preserves J (try_except m h).
Proof.
  intros Hm Hh w r w' HJ H.
  apply try_except_any in H as [(a & H1 & _)|(e & w1 & H1 & H2)].
  - by eapply Hm.
  - eapply Hh; [| exact H2]. by eapply Hm.
Qed.

Lemma fs_preserves_emit J e : fs_preserves J (emit e).
Proof. by intros w r w' HJ [= <- <-]. Qed.

Lemma fs_preserves_for_each {A} J (l : list A) (f : A → M unit) :
  (∀ x, x ∈ l → fs_preserves J (f x)) → fs_preserves J (for_each l f).
Proof.
  induction l as [|x l IH]; intros Hf; simpl.
  - apply fs_preserves_ret.
  - apply fs_preserves_bind; [apply Hf; by left |].
    intros _. apply IH. intros y Hy. apply Hf. by right.
Qed.

Lemma fs_preserves_or_return_false J step rest :
  fs_preserves J step → fs_preserves J rest → fs_preserves J (or_return_false step rest).
Proof.
  intros Hs Hr. apply fs_preserves_bind; [done |].
  intros [|]; [done | apply fs_preserves_ret].
Qed.

Lemma fs_preserves_run_steps J steps :
  Forall (fs_preserves J) steps → fs_preserves J (run_steps steps).
Proof.
  induction 1 as [|s steps Hs _ IH]; simpl.
  - apply fs_preserves_ret.
  - by apply fs_preserves_or_return_false.
Qed.

Lemma fs_preserves_handler J prefix e :
  fs_preserves J (logger_error (prefix ++ exn_str e);; ret false).
Proof. apply fs_preserves_bind; [apply fs_preserves_emit | intros _; apply fs_preserves_ret]. Qed.

Lemma fs_preserves_generate_website_code J self text_input :
  fs_preserves J (generate_website_code self text_input).
Proof.
  intros w r w' HJ H. rewrite generate_website_code_run in H. cbv zeta in H.
  destruct (completion_outcome _); by injection H as <- <-.
Qed.

Lemma read_input_any args w r w' :
  read_input args w = (r, w') → fs w' = fs w ∧ events w' = events w.
Proof.
  unfold read_input, bind, isfile, read_text, bind, raise, ret.
  destruct (match fs w !! Path (input args) with
            | Some (File _) | Some Blob => true | _ => false end);
    [| by intros [= <- <-]].
  destruct (next_fault w) as [[[]|e] w1] eqn:E; apply next_fault_any in E as [<- <-].
  - destruct (fs w1 !! Path (input args)) as [[| |]|]; by intros [= <- <-].
  - by intros [= <- <-].
Qed.

(** The file operations of one generator keep any property [J] of the file
    system that its three kinds of operation keep: removing the project
    tree, making a directory at or below the project path, and writing a
    file below it. *)
Section generator_preserves.
Context (self : DirectWebsiteGenerator) (J : gmap path node → Prop).
Let P := project_path self.
Hypothesis J_rmtree : ∀ f, J f → J (filter (λ kv, ¬ under P kv.1) f).
Hypothesis J_mkdir :
  ∀ s f f', J f → mkdir_from P.1 [] (P.2 ++ s) f = Ok f' → J f'.
Hypothesis J_write :
  ∀ rel text f, J f → (below P rel).2 ≠ [] → f !! below P rel ≠ Some Dir →
                parent_is_dir f (below P rel) → J (<[below P rel := File text]> f).

Lemma fs_preserves_rmtree : fs_preserves J (rmtree P).
Proof.
  intros w r w' HJ H.
  apply rmtree_any in H as [(_ & _ & _ & -> & _)|(e & _ & -> & _)]; [| done].
  by apply J_rmtree.
Qed.

Lemma fs_preserves_mkdir s : fs_preserves J (mkdir (below P s)).
Proof.
  intros w r w' HJ H.
  apply mkdir_any in H as [(_ & Hmk & _)|(e & _ & -> & _)]; [| done].
  eapply J_mkdir; [exact HJ | exact Hmk].
Qed.

Lemma fs_preserves_write rel text : fs_preserves J (write_text (below P rel) text).
Proof.
  intros w r w' HJ H.
  apply write_text_any in H as [(_ & -> & _ & H1 & H2 & H3)|(e & _ & -> & _)]; [| done].
  by apply J_write.
Qed.

Lemma fs_preserves_guarded_write p rel text (k : M bool) prefix :
  p = below P rel →
  (k = ret true ∨ ∃ msg, k = (logger_info msg ;; ret true)) →
  fs_preserves J
    (try_except (write_text p text ;; k)
       (λ e, logger_error (prefix ++ exn_str e);; ret false)).
Proof.
  intros -> Hk. apply fs_preserves_try_except; [| intros e; apply fs_preserves_handler].
  apply fs_preserves_bind; [apply fs_preserves_write |]. intros _.
  destruct Hk as [->|[msg ->]]; [apply fs_preserves_ret |].
  apply fs_preserves_bind; [apply fs_preserves_emit | intros _; apply fs_preserves_ret].
Qed.

Lemma fs_preserves_create_project_structure :
  fs_preserves J (create_project_structure self).
Proof.
  unfold create_project_structure. fold P.
  rewrite (path_join_2 P (lit "src") (lit "app")),
    (path_join_2 P (lit "src") (lit "components")),
    (path_join_1 P (lit "src")), (path_join_1 P (lit "public")) by reflexivity.
  apply fs_preserves_try_except; [| intros e; apply fs_preserves_handler].
  apply fs_preserves_bind; [apply fs_preserves_emit | intros _].
  apply fs_preserves_bind; [by intros w r w' HJ [= <- <-] | intros there].
  apply fs_preserves_bind.
  { destruct there; [apply fs_preserves_rmtree | apply fs_preserves_ret]. }
  intros _. apply fs_preserves_bind.
  - rewrite <-(below_nil P) at 1. apply fs_preserves_for_each. intros p Hp.
    repeat (apply elem_of_cons in Hp as [->|Hp]; [apply fs_preserves_mkdir |]).
    by apply elem_of_nil in Hp.
  - intros _. apply fs_preserves_bind; [apply fs_preserves_emit |].
    intros _. apply fs_preserves_ret.
Qed.

Lemma fs_preserves_log_step msg : fs_preserves J (log_step msg).
Proof. apply fs_preserves_bind; [apply fs_preserves_emit | intros _; apply fs_preserves_ret]. Qed.

Lemma fs_preserves_materializer_steps code :
  Forall (fs_preserves J) (materializer_steps self code).
Proof.
  unfold materializer_steps, create_package_json, create_next_config,
    create_tailwind_config, create_postcss_config, create_typescript_config,
    create_eslint_config, create_gitignore, create_readme, create_globals_css,
    create_layout_file, create_page_file.
  repeat (constructor;
    [first [ apply fs_preserves_log_step
           | eapply fs_preserves_guarded_write;
             [ first [ apply path_join_1; reflexivity | apply path_join_3; reflexivity ]
             | first [ by left | right; by eexists ] ] ] |]).
  constructor.
Qed.

Lemma fs_preserves_generate_website text_input :
  fs_preserves J (generate_website self text_input).
Proof.
  intros w r w' HJ H.
  change (generate_website self text_input w) with
    (try_except
       (logger_info (lit "Starting direct website generation...");;
        logger_info (lit "Generating code with GPT-4...");;
        let* generated_code := generate_website_code self text_input in
        or_return_false (create_project_structure self)
          (run_steps (materializer_steps self generated_code)))
       (λ e, logger_error (lit "Error in website generation: " ++ exn_str e);; ret false)
       w) in H.
  revert w r w' HJ H. change (fs_preserves J
    (try_except
       (logger_info (lit "Starting direct website generation...");;
        logger_info (lit "Generating code with GPT-4...");;
        let* generated_code := generate_website_code self text_input in
        or_return_false (create_project_structure self)
          (run_steps (materializer_steps self generated_code)))
       (λ e, logger_error (lit "Error in website generation: " ++ exn_str e);; ret false))).
  apply fs_preserves_try_except; [| intros e; apply fs_preserves_handler].
  apply fs_preserves_bind; [apply fs_preserves_emit | intros _].
  apply fs_preserves_bind; [apply fs_preserves_emit | intros _].
  apply fs_preserves_bind; [apply fs_preserves_generate_website_code | intros code].
  apply fs_preserves_or_return_false; [apply fs_preserves_create_project_structure |].
  apply fs_preserves_run_steps, fs_preserves_materializer_steps.
Qed.
End generator_preserves.

Lemma removelast_prefix {A} (l : list A) : removelast l `prefix_of` l.
Proof.
  destruct l as [|x l _] using rev_ind; [done |].
  rewrite removelast_last. by apply prefix_app_r.
Qed.

Lemma parent_under p k : under p (parent k) → under p k.
Proof.
  intros [H1 H2]. split; [done |]. simpl in H2.
  etrans; [exact H2 | apply removelast_prefix].
Qed.

Lemma under_below P rel : under P (below P rel).
Proof. split; [done |]. by apply prefix_app_r. Qed.

Lemma under_inv P q : under P q → ∃ rel, q = below P rel.
Proof.
  destruct q as [a k]. intros [H1 [rel H2]]. simpl in *. subst. by exists rel.
Qed.

Lemma wf_filter p f : fs_wf f → fs_wf (filter (λ kv, ¬ under p kv.1) f).
Proof.
  intros Hwf k n Hk. apply map_lookup_filter_Some in Hk as [Hk Hnu]. simpl in Hnu.
  destruct (Hwf k n Hk) as [Hroot|Hpar]; [by left | right].
  apply map_lookup_filter_Some. split; [done |]. simpl.
  intros Hu. by apply Hnu, parent_under.
Qed.

Lemma parent_is_dir_insert_dir (f : gmap path node) k q :
  parent_is_dir f q → parent_is_dir (<[k := Dir]> f) q.
Proof.
  intros [H|H]; [by left | right]. rewrite lookup_insert. by case_decide.
Qed.

Lemma wf_insert_dir f k : fs_wf f → parent_is_dir f k → fs_wf (<[k := Dir]> f).
Proof.
  intros Hwf Hp k' n Hk'. apply parent_is_dir_insert_dir.
  apply lookup_insert_Some in Hk' as [[<- _]|[_ Hk']]; [done |]. by eapply Hwf.
Qed.

Lemma wf_mkdir_from a base rest f f' :
  fs_wf f → base = [] ∨ f !! (a, base) = Some Dir →
  mkdir_from a base rest f = Ok f' → fs_wf f'.
Proof.
  revert base f. induction rest as [|x rest IH]; intros base f Hwf Hbase H; simpl in H.
  - by injection H as <-.
  - destruct (f !! (a, base ++ [x])) as [[| |]|] eqn:E; try (by destruct rest).
    + eapply IH; [exact Hwf | by right | exact H].
    + eapply IH; [| | exact H].
      * apply wf_insert_dir; [done |].
        unfold parent_is_dir, parent. simpl. rewrite removelast_last.
        destruct Hbase; [by left | by right].
      * right. by rewrite lookup_insert_eq.
Qed.

Lemma wf_insert_file f p text :
  fs_wf f → f !! p ≠ Some Dir → parent_is_dir f p → fs_wf (<[p := File text]> f).
Proof.
  intros Hwf Hnd Hp k n Hk.
  assert (parent_is_dir f k) as [Hq|Hq].
  { apply lookup_insert_Some in Hk as [[<- _]|[_ Hk]]; [done | by eapply Hwf]. }
  - by left.
  - right. rewrite lookup_insert_ne; [done |]. intros ->. done.
Qed.

Lemma generate_website_wf self text_input w r w' :
  fs_wf (fs w) → generate_website self text_input w = (r, w') → fs_wf (fs w').
Proof.
  apply (fs_preserves_generate_website self fs_wf).
  - intros f. apply wf_filter.
  - intros s f f' Hwf. apply wf_mkdir_from; [done | by left].
  - intros rel text f Hwf _ Hnd Hp. by apply wf_insert_file.
Qed.

Lemma same_outside_refl P f : same_outside P f f.
Proof. intros q _. by left. Qed.

Lemma filter_lookup_outside (P : path) (f : gmap path node) (q : path) :
  ¬ under P q → filter (λ kv, ¬ under P kv.1) f !! q = f !! q.
Proof.
  intros Hq. destruct (f !! q) as [n|] eqn:E.
  - by apply map_lookup_filter_Some.
  - apply map_lookup_filter_None. by left.
Qed.

Lemma created_outside P s q :
  ¬ under P q → created P.1 [] (P.2 ++ s) q → above P q.
Proof.
  intros Hq [H1 (t & Ht & Hp & H2)]. simpl in H2. subst t.
  split_and!; [done | done |].
  destruct (prefix_weak_total _ _ _ Hp (prefix_app_r P.2 P.2 s (reflexivity _)))
    as [H|H]; [done |].
  destruct Hq. by split.
Qed.

Lemma created_decide a rest k :
  created a [] rest k ↔ k.1 = a ∧ k.2 ≠ [] ∧ k.2 `prefix_of` rest.
Proof.
  unfold created. simpl. split.
  - intros [H1 (t & Ht & Hp & ->)]. done.
  - intros (H1 & H2 & H3). split; [done |]. by exists k.2.
Qed.

Lemma same_outside_mkdir P s f0 f f' :
  same_outside P f0 f → mkdir_from P.1 [] (P.2 ++ s) f = Ok f' → same_outside P f0 f'.
Proof.
  intros Hso H q Hq.
  destruct (mkdir_from_lookup _ _ _ _ _ q H) as (Ha & Hb & Hc).
  destruct (Hso q Hq) as [Heq|(Hab & H0 & Hd)]; [| right; split_and!; by auto].
  destruct (f !! q) as [n|] eqn:E.
  - left. by rewrite (Ha n eq_refl).
  - destruct (decide (q.1 = P.1 ∧ q.2 ≠ [] ∧ q.2 `prefix_of` P.2 ++ s)) as [Hcr|Hcr].
    + apply created_decide in Hcr. right. split_and!; [| done | by apply Hb].
      by eapply created_outside.
    + left. rewrite <-Heq. apply Hc; [done |]. intros Hcr'. by apply Hcr, created_decide.
Qed.

Lemma generate_website_same_outside self text_input w r w' :
  generate_website self text_input w = (r, w') →
  same_outside (project_path self) (fs w) (fs w').
Proof.
  apply (fs_preserves_generate_website self (same_outside (project_path self) (fs w))).
  - intros f Hso q Hq. rewrite filter_lookup_outside by done. by apply Hso.
  - intros s f f'. apply same_outside_mkdir.
  - intros rel text f Hso _ _ _ q Hq. rewrite lookup_insert_ne; [by apply Hso |].
    intros <-. apply Hq, under_below.
  - apply same_outside_refl.
Qed.

(** X8: main changes nothing outside the project path. For a project path
    without [..] part, every entry of the file system that is not at or
    below [output_dir / project_name] is after the run what it was before,
    except that missing directories above the project path may have been
    made. This holds however the run ends. *)
Theorem main_stays_inside unicode_lower OpenAI getenv args w :
  let P := Path (output_dir_arg args)
           /: clean_project_name unicode_lower (project_name_arg args) in
  plain_path P →
  same_outside P (fs w) (fs (main unicode_lower OpenAI getenv args w).2).
Proof.
  intros P _. unfold main.
  destruct (py_or (api_key_arg args) getenv) as [[|c k]|];
    try apply same_outside_refl.
  unfold bind at 1. destruct (read_input args w) as [[text|e] w1] eqn:Hr;
    apply read_input_any in Hr as [Hfs _]; [| simpl; rewrite Hfs; apply same_outside_refl].
  unfold bind at 1.
  match goal with
  | |- context [generate_website ?g ?t ?w0] =>
      destruct (generate_website g t w0) as [[ok|e] w2] eqn:Hg
  end.
  - apply generate_website_same_outside in Hg. simpl in Hg. fold P in Hg.
    rewrite Hfs in Hg. by destruct ok.
  - apply generate_website_same_outside in Hg. simpl in Hg. fold P in Hg.
    by rewrite Hfs in Hg.
Qed.

Lemma wf_ancestor f a k t :
  fs_wf f → k ≠ [] → f !! (a, k ++ t) = Some Dir → f !! (a, k) = Some Dir.
Proof.
  intros Hwf Hk. induction t as [|x t IH] using rev_ind.
  - by rewrite app_nil_r.
  - rewrite app_assoc. intros H. apply IH.
    eapply fs_wf_parent; [done | | exact H].
    intros Hnil. apply app_eq_nil in Hnil as [? _]. done.
Qed.

Lemma project_tree_page name code :
  project_tree name code !! [lit "src"; lit "app"; lit "page.tsx"] = Some (File code).
Proof.
  unfold project_tree. generalize (json_dump (package_json name)) (readme_content name).
  intros j1 j2. vm_compute. reflexivity.
Qed.

(** Two project trees of one name differ at the page only. *)
Lemma project_tree_other name code1 code2 rel :
  rel ≠ [lit "src"; lit "app"; lit "page.tsx"] →
  project_tree name code1 !! rel = project_tree name code2 !! rel.
Proof.
  intros Hrel. unfold project_tree.
  generalize (json_dump (package_json name)) (readme_content name)
    next_config tailwind_config postcss_config (json_dump ts_config)
    (json_dump eslint_config) gitignore_content globals_css layout_content.
  intros. cbn [list_to_map foldr uncurry fst snd].
  repeat match goal with
         | |- <[?k := ?v]> _ !! rel = <[?k := ?v]> _ !! rel =>
             destruct (decide (k = rel)) as [<-|?];
             [by rewrite !lookup_insert_eq | rewrite !(lookup_insert_ne _ k rel) by done]
         end.
  rewrite !lookup_insert_ne by done. done.
Qed.

(** X9: Running the generator again on the project it has made. When both
    runs succeed (same configuration, a project path without [..] part, a
    file system that is a tree), the second run leaves every entry of the
    file system as the first left it, but for the page: the service
    answers anew, and page.tsx holds the code of the second answer. *)
Theorem second_run_renews_page OpenAI1 OpenAI2 cfg text1 text2 w w1 w2 :
  let first := new_generator OpenAI1 cfg in
  let second := new_generator OpenAI2 cfg in
  let page := below (project_path first) [lit "src"; lit "app"; lit "page.tsx"] in
  plain_path (project_path first) →
  fs_wf (fs w) →
  generate_website first text1 w = (Ok true, w1) →
  generate_website second text2 w1 = (Ok true, w2) →
  ∃ code,
    completion_outcome (client second (chat_request text2)) = Ok code
    ∧ fs w2 !! page = Some (File code)
    ∧ ∀ p, p ≠ page → fs w2 !! p = fs w1 !! p.
Proof.
  intros first second page _ Hwf H1 H2.
  pose proof (generate_website_wf _ _ _ _ _ Hwf H1) as Hwf1.
  pose proof (generate_website_same_outside _ _ _ _ _ H2) as Hso.
  apply generate_website_true in H1 as (c1 & Hc1 & HP & _ & Hv1).
  apply generate_website_true in H2 as (c2 & Hc2 & _ & _ & Hv2).
  specialize (Hv1 Hwf). specialize (Hv2 Hwf1).
  change (project_path second) with (project_path first) in *.
  change (project_name (config second)) with (project_name (config first)) in *.
  exists c2. split; [done |]. split.
  { unfold page. rewrite Hv2. apply project_tree_page. }
  intros q Hq.
  destruct (decide (under (project_path first) q)) as [Hu|Hu].
  - apply under_inv in Hu as [rel ->]. rewrite Hv1, Hv2.
    apply project_tree_other. intros ->. by apply Hq.
  - destruct (Hso q Hu) as [Heq|((Ha1 & Ha2 & [t Ha3]) & Hnone & _)]; [done |].
    exfalso. pose proof (Hv1 []) as Hroot.
    assert (project_tree (project_name (config first)) c1 !! [] = Some Dir) as Htree.
    { unfold project_tree.
      generalize (json_dump (package_json (project_name (config first))))
        (readme_content (project_name (config first))).
      intros j1 j2. vm_compute. reflexivity. }
    rewrite below_nil, Htree in Hroot.
    destruct q as [a k]. cbn [fst snd] in Ha1, Ha2, Ha3. subst a.
    assert (project_path first = ((project_path first).1, k ++ t)) as HPeq.
    { rewrite <-Ha3. by destruct (project_path first). }
    rewrite HPeq in Hroot. apply wf_ancestor in Hroot; [| done | done].
    congruence.
Qed.

(** ** main, whatever its outcome *)

(** X10: The credential is the flag when the flag is not empty, and the
    environment variable otherwise: with a non-empty flag the environment
    plays no part, and a missing or empty flag makes main run as if the
    environment's value had been given as the flag. *)
Theorem main_credential_choice unicode_lower OpenAI getenv args w :
  (truthy (api_key_arg args) = true →
   ∀ getenv', main unicode_lower OpenAI getenv' args w
              = main unicode_lower OpenAI getenv args w)
  ∧ (truthy (api_key_arg args) = false →
     main unicode_lower OpenAI getenv args w
     = main unicode_lower OpenAI None
         {| input := input args; output_dir_arg := output_dir_arg args;
            project_name_arg := project_name_arg args; api_key_arg := getenv |} w).
Proof.
  split; intros H.
  - intros getenv'. unfold main, py_or. by rewrite H.
  - unfold main, py_or. cbn [api_key_arg input output_dir_arg project_name_arg].
    rewrite H. by destruct (truthy getenv) eqn:E; destruct getenv as [[|c k]|].
Qed.

Lemma main_credential_choice_witness :
  let args := {| input := lit "a page"; output_dir_arg := lit "./out";
                 project_name_arg := lit "site"; api_key_arg := Some [] |} in
  main ascii_table_only (answering sample_page) (Some (lit "sk-env")) args empty_world
  = main ascii_table_only (answering sample_page) None
      {| input := lit "a page"; output_dir_arg := lit "./out";
         project_name_arg := lit "site"; api_key_arg := Some (lit "sk-env") |} empty_world.
Proof.
  intros args.
  apply (main_credential_choice ascii_table_only (answering sample_page)
           (Some (lit "sk-env")) args empty_world).
  reflexivity.
Defined.

(** X11: An input file that cannot be read stops main at once: the exception
    leaves main before any request is sent and before any file operation,
    and nothing is logged or printed. *)
Theorem unreadable_input_stops_main unicode_lower OpenAI getenv args w e w1 :
  truthy (py_or (api_key_arg args) getenv) = true →
  read_input args w = (Raise e, w1) →
  main unicode_lower OpenAI getenv args w = (Raise e, w1)
  ∧ fs w1 = fs w
  ∧ events w1 = events w.
Proof.
  intros Hk Hr. split; [| by apply read_input_any in Hr].
  unfold main. destruct (py_or (api_key_arg args) getenv) as [[|c k]|]; try done.
  unfold bind at 1. by rewrite Hr.
Qed.

Lemma unreadable_input_stops_main_witness :
  let args := {| input := lit "brief.bin"; output_dir_arg := lit "./out";
                 project_name_arg := lit "site"; api_key_arg := Some (lit "sk-test") |} in
  main ascii_table_only (answering sample_page) None args blob_world
  = (Raise UnicodeDecodeError, blob_world)
  ∧ fs blob_world = fs blob_world
  ∧ events blob_world = events blob_world.
Proof.
  intros args.
  apply (unreadable_input_stops_main ascii_table_only (answering sample_page) None args
           blob_world UnicodeDecodeError blob_world); reflexivity.
Defined.

(** The side effects of a run of generate_website: the request, then file
    events only. *)
Lemma generate_website_request_first self text_input w r w' :
  generate_website self text_input w = (r, w') →
  ∃ E, effects_of (events w')
       = effects_of (events w) ++ ENetCall (chat_request text_input) :: E
       ∧ Forall (λ e, fs_event e = true) E.
Proof.
  intros H. apply generate_website_any in H. cbv zeta in H.
  destruct (completion_outcome (client self (chat_request text_input))) as [code|e].
  - destruct H as [(_ & E & x & R & Hev & HxR)|(n & f & Hev & _ & _)].
    + exists E. split; [done |].
      pose proof (structure_events_file (project_path self)
                    (bool_decide (is_Some (fs w !! project_path self)))) as HF.
      rewrite <-HxR in HF. by apply Forall_app in HF as [HF _].
    + eexists. split; [exact Hev |]. apply Forall_app. split.
      * apply structure_events_file.
      * apply Forall_fmap, Forall_true. done.
  - destruct H as (_ & _ & Hev). by exists [].
Qed.

(** X12: With a credential and a description in hand, main sends exactly one
    request, and it carries the description: the text of the file that the
    input argument names, or the argument itself. The request comes before
    every file operation of the run; reading, logging and printing are the
    only other things main does. *)
Theorem main_sends_one_request unicode_lower OpenAI getenv args w text w1 :
  truthy (py_or (api_key_arg args) getenv) = true →
  read_input args w = (Ok text, w1) →
  ∃ E,
    effects_of (events (main unicode_lower OpenAI getenv args w).2)
    = effects_of (events w) ++ ENetCall (chat_request text) :: E
    ∧ Forall (λ e, fs_event e = true) E.
Proof.
  intros Hk Hr. pose proof (read_input_any _ _ _ _ Hr) as [_ Hev1].
  unfold main. destruct (py_or (api_key_arg args) getenv) as [[|c k]|]; try done.
  unfold bind at 1. rewrite Hr. unfold bind at 1.
  match goal with
  | |- context [generate_website ?g ?t ?w0] =>
      destruct (generate_website_total g t w0) as (ok & w2 & Hg); rewrite Hg
  end.
  apply generate_website_request_first in Hg as (E & Hev & HE).
  exists E. split; [| done]. rewrite <-Hev1, <-Hev.
  destruct ok; simpl; by rewrite ?effects_of_snoc, ?app_nil_r.
Qed.

Lemma main_sends_one_request_witness :
  let w := {| fs := {[ (false, [lit "brief.txt"]) := File (lit "a bakery page") ]};
              faults := []; events := [] |} in
  let args := {| input := lit "brief.txt"; output_dir_arg := lit "./out";
                 project_name_arg := lit "site"; api_key_arg := Some (lit "sk-test") |} in
  ∃ E,
    effects_of (events (main ascii_table_only (answering sample_page) None args w).2)
    = effects_of (events w) ++ ENetCall (chat_request (lit "a bakery page")) :: E
    ∧ Forall (λ e, fs_event e = true) E.
Proof.
  intros w args.
  apply (main_sends_one_request ascii_table_only (answering sample_page) None args w
           (lit "a bakery page") w); reflexivity.
Defined.

(** ** Paths *)

(** X13: For a project name that is one plain path part (not empty, not [.],
    no slash), the project directory is the output directory's path with
    exactly that name added. *)
Theorem project_path_location OpenAI cfg :
  valid_part (project_name cfg) →
  project_path (new_generator OpenAI cfg)
  = below (Path (output_dir cfg)) [project_name cfg].
Proof.
  intros Hv. unfold new_generator, project_path. apply path_join_1.
  unfold Path. rewrite path_parts_single by done.
  destruct Hv as (_ & _ & Hs). by rewrite startswith_slash_false.
Qed.

Lemma project_path_location_witness :
  project_path (new_generator (answering sample_page) sample_config)
  = below (Path (lit "./out")) [lit "coffee-site"].
Proof.
  apply (project_path_location (answering sample_page) sample_config).
  split_and!; [done | done |]. apply (bool_decide_unpack _). by vm_compute.
Defined.

Lemma split_join sep parts :
  parts ≠ [] → Forall (λ l, sep ∉ l) parts → split sep (join [sep] parts) = parts.
Proof.
  induction parts as [|l parts IH]; [done |]. intros _ H.
  apply Forall_cons in H as [Hl H].
  destruct parts as [|l' parts]; [by apply split_no_sep |].
  rewrite join_cons. change ([sep] ++ join [sep] (l' :: parts))
    with (sep :: join [sep] (l' :: parts)).
  rewrite split_app, split_no_sep by done. by rewrite IH.
Qed.

Lemma path_str_parse a parts :
  Forall valid_part parts → Path (path_str (a, parts)) = (a, parts).
Proof.
  intros Hv.
  assert (Forall (λ l, slash ∉ l) parts) as Hs.
  { eapply Forall_impl; [exact Hv |]. by intros x (_ & _ & ?). }
  destruct a.
  - unfold path_str, Path. f_equal; [cbn [startswith]; by rewrite N.eqb_refl, startswith_nil |].
    unfold path_parts. cbn [split]. rewrite N.eqb_refl.
    rewrite filter_cons_False by (intros [? _]; done).
    destruct parts as [|p parts]; [done |].
    rewrite split_join by done. by apply valid_part_keep.
  - destruct parts as [|p parts]; [done |].
    change (path_str (false, p :: parts)) with (join [slash] (p :: parts)).
    unfold Path. f_equal.
    + apply Forall_cons in Hv as [(Hne & _ & Hp) _].
      destruct p as [|c p]; [done |]. rewrite join_cons_char. cbn [startswith].
      apply not_elem_of_cons in Hp as [Hc _].
      destruct (N.eqb_spec slash c) as [E|E]; [by destruct Hc | done].
    + unfold path_parts. rewrite split_join by done. by apply valid_part_keep.
Qed.

(** X14: The location that main logs and prints denotes the project path:
    parsing the printed text gives the path back. *)
Theorem printed_location_round_trip output_dir project_name :
  let p := Path output_dir /: project_name in
  Path (path_str p) = p.
Proof.
  intros p. assert (Forall valid_part p.2) as Hv.
  { unfold p, path_join. destruct (Path project_name).1 eqn:E.
    - apply path_parts_valid.
    - apply Forall_app. split; apply path_parts_valid. }
  destruct p as [a parts]. by apply path_str_parse.
Qed.

(** ** The manifest *)

Example manifest_head_ex : manifest_head = tpl "{" ++ [nl] ++ tpl "  ~name~: ".
Proof. reflexivity. Qed.

Lemma package_json_text name :
  json_dump (package_json name)
  = manifest_head ++ encode_basestring_ascii name ++ manifest_tail.
Proof.
  unfold json_dump, package_json.
  change (iterencode 0 (JDict ?l))
    with (lit "{" ++ newline_indent 1
          ++ join (lit "," ++ newline_indent 1)
               ((λ kv, encode_basestring_ascii kv.1 ++ lit ": " ++ iterencode 1 kv.2) <$> l)
          ++ newline_indent 0 ++ lit "}").
  do 2 rewrite fmap_cons. cbn [fst snd].
  change (iterencode 1 (JStr name)) with (encode_basestring_ascii name).
  generalize (encode_basestring_ascii name). intros e.
  match goal with
  | |- context [join ?sep (?x :: ?y :: ?r)] =>
      change (join sep (x :: y :: r)) with (x ++ sep ++ join sep (y :: r))
  end.
  rewrite <-!app_assoc. vm_compute. reflexivity.
Qed.

Lemma hex_digit_text n : (n < 16)%N → ascii_text_char (hex_digit n).
Proof.
  intros H. unfold hex_digit, ascii_text_char. right.
  destruct (N.ltb_spec n 10); lia.
Qed.

Lemma u_escape_text n : Forall ascii_text_char (u_escape n).
Proof.
  unfold u_escape.
  repeat (constructor; [first [ by (right; unfold backslash; lia)
                              | apply hex_digit_text, N.mod_lt; lia ] |]).
  constructor.
Qed.

Lemma escape_char_text c : Forall ascii_text_char (escape_char c).
Proof.
  unfold escape_char.
  repeat match goal with
         | |- context [(c =? ?d)%N] =>
             destruct (N.eqb_spec c d) as [_|_];
             [apply (bool_decide_unpack _); by vm_compute |]
         end.
  destruct (N.leb_spec 32 c) as [H1|_], (N.leb_spec c 126) as [H2|_]; cbn [andb];
    try (constructor; [right; lia | constructor]);
    (destruct (N.ltb_spec c 65536) as [_|_];
       [apply u_escape_text | apply Forall_app; split; apply u_escape_text]).
Qed.

Lemma encode_basestring_ascii_text s : Forall ascii_text_char (encode_basestring_ascii s).
Proof.
  unfold encode_basestring_ascii. constructor; [right; unfold dquote; lia |].
  apply Forall_app. split; [| constructor; [right; unfold dquote; lia | constructor]].
  apply Forall_concat, Forall_fmap, Forall_true. apply escape_char_text.
Qed.

(** X15: package.json is plain ASCII whatever the project name: printable
    characters and newlines only, every other character of the name being
    written as an escape. *)
Theorem package_json_ascii name :
  Forall ascii_text_char (json_dump (package_json name)).
Proof.
  rewrite package_json_text. apply Forall_app. split; [| apply Forall_app; split].
  - apply (bool_decide_unpack _). by vm_compute.
  - apply encode_basestring_ascii_text.
  - apply (bool_decide_unpack _). by vm_compute.
Qed.

Lemma escape_char_plain c : json_plain_char c → escape_char c = [c].
Proof.
  intros (H1 & H2 & H3 & H4). unfold escape_char, dquote, backslash.
  repeat match goal with
         | |- context [(c =? ?d)%N] => destruct (N.eqb_spec c d) as [?|_]; [lia |]
         end.
  destruct (N.leb_spec 32 c); [| lia]. destruct (N.leb_spec c 126); [done | lia].
Qed.

Lemma encode_basestring_ascii_plain s :
  Forall json_plain_char s → encode_basestring_ascii s = dquote :: s ++ [dquote].
Proof.
  intros H. unfold encode_basestring_ascii. do 2 f_equal.
  induction H as [|c s Hc _ IH]; [done |].
  cbn [fmap list_fmap concat]. by rewrite escape_char_plain, IH.
Qed.

(** X16: A project name of printable ASCII without quote and backslash stands
    in package.json as it is, between quotes, as the value of the name
    field; the rest of the manifest does not depend on it. *)
Theorem package_json_plain_name name :
  Forall json_plain_char name →
  json_dump (package_json name) = manifest_head ++ dquote :: name ++ dquote :: manifest_tail.
Proof.
  intros H. rewrite package_json_text, encode_basestring_ascii_plain by done.
  f_equal. rewrite <-app_comm_cons, <-app_assoc. done.
Qed.

Lemma package_json_plain_name_witness :
  json_dump (package_json (lit "coffee-site"))
  = manifest_head ++ dquote :: lit "coffee-site" ++ dquote :: manifest_tail.
Proof.
  apply (package_json_plain_name (lit "coffee-site")).
  apply (bool_decide_unpack _). by vm_compute.
Defined.

(** ** The request *)

(** X17: The description goes into the request whole: two different
    descriptions never give the same request. *)
Theorem chat_request_distinguishes text1 text2 :
  text1 ≠ text2 → chat_request text1 ≠ chat_request text2.
Proof.
  intros Hne H. apply Hne. apply (f_equal messages) in H.
  cbn [messages chat_request] in H. injection H as H.
  by apply app_inv_tail in H.
Qed.

Lemma chat_request_distinguishes_witness :
  chat_request (lit "a bakery") ≠ chat_request (lit "a bakery page").
Proof. apply (chat_request_distinguishes (lit "a bakery") (lit "a bakery page")). done. Defined.

(** ** The project name, again *)

Lemma ascii_lower_cases c :
  ((65 ≤ c ≤ 90)%N ∧ ascii_lower c = (c + 32)%N) ∨ (¬ (65 ≤ c ≤ 90)%N ∧ ascii_lower c = c).
Proof.
  unfold ascii_lower.
  destruct (N.leb_spec 65 c), (N.leb_spec c 90); cbn [andb]; [left | right ..]; split; (done || lia).
Qed.

Lemma hyphenate_cases c :
  ((c = 32 ∨ c = 95)%N ∧ hyphenate c = 45%N) ∨ (c ≠ 32%N ∧ c ≠ 95%N ∧ hyphenate c = c).
Proof.
  unfold hyphenate.
  destruct (N.eqb_spec c 32), (N.eqb_spec c 95); cbn [orb]; [left .. | right]; auto.
Qed.

Lemma hyphenate_lower_ascii c : is_ascii c = true → is_ascii (hyphenate (ascii_lower c)) = true.
Proof.
  unfold is_ascii. rewrite !N.ltb_lt.
  destruct (ascii_lower_cases c) as [[? ->]|[? ->]];
    match goal with
    | |- context [hyphenate ?x] => destruct (hyphenate_cases x) as [[? ->]|(? & ? & ->)]
    end; lia.
Qed.

Lemma hyphenate_lower_twice c :
  hyphenate (ascii_lower (hyphenate (ascii_lower c))) = hyphenate (ascii_lower c).
Proof.
  assert (∃ x, hyphenate (ascii_lower c) = x ∧ ¬ (65 ≤ x ≤ 90)%N ∧ x ≠ 32%N ∧ x ≠ 95%N)
    as (x & -> & Hx & H32 & H95).
  { eexists. split; [done |].
    destruct (ascii_lower_cases c) as [[? ->]|[? ->]];
      match goal with
      | |- context [hyphenate ?x] => destruct (hyphenate_cases x) as [[? ->]|(? & ? & ->)]
      end; lia. }
  destruct (ascii_lower_cases x) as [[? ->]|[? ->]]; [lia |].
  destruct (hyphenate_cases x) as [[? ->]|(? & ? & ->)]; [lia | done].
Qed.

(** X18: Cleaning an ASCII project name a second time changes nothing: the
    directory name a run made can be given back as --project-name. *)
Theorem clean_project_name_idempotent unicode_lower name :
  forallb is_ascii name = true →
  clean_project_name unicode_lower (clean_project_name unicode_lower name)
  = clean_project_name unicode_lower name.
Proof.
  intros H.
  assert (clean_project_name unicode_lower name = (hyphenate ∘ ascii_lower) <$> name) as E.
  { rewrite clean_project_name_map. unfold lower. by rewrite H, list_fmap_compose. }
  rewrite E, clean_project_name_map. unfold lower.
  assert (forallb is_ascii ((hyphenate ∘ ascii_lower) <$> name) = true) as ->.
  { apply forallb_forall. intros c Hc. apply in_map_iff in Hc as (c0 & <- & Hc0).
    apply hyphenate_lower_ascii. rewrite forallb_forall in H. by apply H. }
  rewrite <-!list_fmap_compose. apply list_fmap_ext. intros _ c _.
  apply hyphenate_lower_twice.
Qed.

Lemma clean_project_name_idempotent_witness :
  clean_project_name ascii_table_only (clean_project_name ascii_table_only (lit "My Cool_Site"))
  = clean_project_name ascii_table_only (lit "My Cool_Site").
Proof.
  apply (clean_project_name_idempotent ascii_table_only (lit "My Cool_Site")). reflexivity.
Defined.

(** ** The properties at work on sample runs *)

Lemma written_files_stay_witness :
  let self := new_generator (answering sample_page) sample_config in
  let run := generate_website self (lit "a landing page for a coffee shop") disk_full_world in
  run.1 = Ok false
  ∧ fs run.2 !! (project_path self /: lit "package.json")
    = Some (File (json_dump (package_json (lit "coffee-site")))).
Proof.
  intros self run. split; [by vm_compute |].
  apply (written_files_stay self (lit "a landing page for a coffee shop") disk_full_world
           (effects_of (events run.2))).
  - reflexivity.
  - apply (list_elem_of_lookup_2 _ 6%nat). by vm_compute.
Defined.

Lemma main_stays_inside_witness :
  let run := main ascii_table_only (answering sample_page) None sample_args stale_world in
  same_outside (false, [lit "out"; lit "coffee-site"]) (fs stale_world) (fs run.2)
  ∧ fs run.2 !! (false, [lit "out"; lit "other"; lit "keep.txt"]) = Some (File (lit "kept")).
Proof.
  intros run. split; [| by vm_compute].
  apply (main_stays_inside ascii_table_only (answering sample_page) None sample_args
           stale_world).
  apply (bool_decide_unpack _). by vm_compute.
Defined.

Lemma second_run_renews_page_witness :
  let first := new_generator (answering sample_page) sample_config in
  let second := new_generator (answering (lit "export default function Page() { return null }"))
                  sample_config in
  let text_input := lit "a landing page for a coffee shop" in
  let w1 := (generate_website first text_input stale_world).2 in
  let w2 := (generate_website second text_input w1).2 in
  ∃ code,
    completion_outcome (client second (chat_request text_input)) = Ok code
    ∧ fs w2 !! below (project_path first) [lit "src"; lit "app"; lit "page.tsx"]
      = Some (File code)
    ∧ ∀ p, p ≠ below (project_path first) [lit "src"; lit "app"; lit "page.tsx"] →
           fs w2 !! p = fs w1 !! p.
Proof.
  intros first second text_input w1 w2. subst w2 w1.
  apply (second_run_renews_page (answering sample_page)
           (answering (lit "export default function Page() { return null }"))
           sample_config text_input text_input stale_world).
  - apply (bool_decide_unpack _). by vm_compute.
  - apply (bool_decide_unpack _). by vm_compute.
  - apply pair_eta_fst. by vm_compute.
  - apply pair_eta_fst. by vm_compute.
Defined.
